(** * Release synchroniser ([.github/workflows/sync.py])

    A shallow embedding of the script that keeps the appstream release
    list in step with the published releases: the markup sanitizer
    ([SanitizeTreeprocessor]), the artifact classification, the record
    builder and the merge into the persisted collection.

    Conventions of the embedding.
    - Python strings are [string]; the only characters the code inspects
      are ASCII (['v'], the four file-name suffixes).
    - An [xml.etree.ElementTree.Element] is the record [Element]: tag,
      attributes in insertion order, [text] and [tail] (either may be the
      Python value [None]) and the list of children.  The trees the script
      handles own each node once, so a node is identified by its position
      in its parent; an in-place mutation of a child is written back at
      that position.
    - A Python exception is the [Raise] case of [exc].
    - Library code that is not part of the script (the [gh] client,
      [json], [markdown], [xml.etree], [datetime], [urlsplit]) is a
      field of the class [Library].
    - What the script prints is left out. *)

From Stdlib Require Import String Ascii ZArith List Lia Bool.
From stdpp Require Import base tactics option list strings pretty.

Set Warnings "-register-all".

Local Open Scope string_scope.
Local Open Scope list_scope.

(** ** Exceptions *)

Inductive exn : Type :=
  | TypeError | IndexError | KeyError | ValueError
  | JSONDecodeError | ParseError | OSError | RecursionError.

Inductive exc (A : Type) : Type :=
  | Ok (a : A)
  | Raise (e : exn).
Arguments Ok {A} a.
Arguments Raise {A} e.

Definition exc_bind {A B} (m : exc A) (k : A -> exc B) : exc B :=
  match m with
  | Ok a => k a
  | Raise e => Raise e
  end.

Declare Scope exc_scope.
Delimit Scope exc_scope with exc.
Notation "'let*' x := m 'in' k" := (exc_bind m (fun x => k))
  (at level 10, x pattern, m at level 100, k at level 200) : exc_scope.
Local Open Scope exc_scope.

(** A computation that may also run out of fuel ([None]). *)
Definition fuel_bind {A B} (m : option (exc A)) (k : A -> option (exc B))
  : option (exc B) :=
  match m with
  | Some (Ok a) => k a
  | Some (Raise e) => Some (Raise e)
  | None => None
  end.

Notation "'let+' x := m 'in' k" := (fuel_bind m (fun x => k))
  (at level 10, x pattern, m at level 100, k at level 200) : exc_scope.

(** ** Elements *)

Inductive Element : Type := mkElement {
  tag : string;
  attrib : list (string * string);
  text : option string;
  tail : option string;
  children : list Element
}.

Definition set_tag (e : Element) (t : string) : Element :=
  mkElement t (attrib e) (text e) (tail e) (children e).
Definition set_text (e : Element) (t : option string) : Element :=
  mkElement (tag e) (attrib e) t (tail e) (children e).
Definition set_tail (e : Element) (t : option string) : Element :=
  mkElement (tag e) (attrib e) (text e) t (children e).
Definition set_children (e : Element) (cs : list Element) : Element :=
  mkElement (tag e) (attrib e) (text e) (tail e) cs.
Definition set_attrib (e : Element) (a : list (string * string)) : Element :=
  mkElement (tag e) a (text e) (tail e) (children e).

(** [xml.Element(tag)]: no attribute, no text, no tail, no child. *)
Definition new_element (t : string) : Element := mkElement t [] None None [].

(** [dict.get] and [dict.__setitem__] on the attribute dictionary; a new key
    goes last, an existing key keeps its place. *)
Fixpoint dict_get (k : string) (d : list (string * string)) : option string :=
  match d with
  | [] => None
  | (k', v) :: d' => if String.eqb k' k then Some v else dict_get k d'
  end.

Fixpoint dict_set (k v : string) (d : list (string * string)) : list (string * string) :=
  match d with
  | [] => [(k, v)]
  | (k', v') :: d' =>
      if String.eqb k' k then (k', v) :: d' else (k', v') :: dict_set k v d'
  end.

Definition get (e : Element) (k : string) : option string := dict_get k (attrib e).
Definition set (e : Element) (k v : string) : Element :=
  set_attrib e (dict_set k v (attrib e)).
Definition append (e child : Element) : Element :=
  set_children e (children e ++ [child]).

(** Number of nodes of a tree. *)
Fixpoint size (e : Element) : nat :=
  S ((fix sizes (cs : list Element) : nat :=
        match cs with
        | [] => 0
        | c :: cs' => size c + sizes cs'
        end) (children e)).

Definition sizes (cs : list Element) : nat := list_sum (map size cs).

(** Every node of the tree, the root included, satisfies [P]. *)
Inductive ForallElem (P : Element -> Prop) : Element -> Prop :=
  | ForallElem_intro e :
      P e -> Forall (ForallElem P) (children e) -> ForallElem P e.

Section ElementInduction.
Variable P : Element -> Prop.
Hypothesis step : forall t a tx tl cs,
  Forall P cs -> P (mkElement t a tx tl cs).

Fixpoint Element_nested_ind (e : Element) : P e :=
  match e with
  | mkElement t a tx tl cs =>
      step t a tx tl cs
        ((fix all (l : list Element) : Forall P l :=
            match l with
            | [] => @List.Forall_nil _ P
            | c :: l' => @List.Forall_cons _ P c l' (Element_nested_ind c) (all l')
            end) cs)
  end.
End ElementInduction.

(** ** Strings *)

(** [str.lstrip(chars)]: every leading character that is in [chars] is
    dropped. *)
Fixpoint lstrip (chars : list ascii) (s : string) : string :=
  match s with
  | EmptyString => EmptyString
  | String c s' => if existsb (Ascii.eqb c) chars then lstrip chars s' else s
  end.

(** [str.endswith(suffix)]: the last [len(suffix)] characters are compared. *)
Definition endswith (s suffix : string) : bool :=
  let n := String.length s in
  let m := String.length suffix in
  (m <=? n)%nat && String.eqb (substring (n - m) m s) suffix.

(** ** The sanitizer *)

Module Sanitize.

Definition allowed_tags : list string := ["p"; "li"; "ul"; "ol"; "em"; "code"].
Definition tag_mapping : list (string * string) := [("strong", "em")].

Definition allowed (t : string) : bool := existsb (String.eqb t) allowed_tags.

(** [a += b] on values that are a string or [None]: anything but two strings
    is a [TypeError]. *)
Definition iadd (a b : option string) : exc string :=
  match a, b with
  | Some x, Some y => Ok (x +:+ y)
  | _, _ => Raise TypeError
  end.

(** [to_text] (lines 48-53). *)
Fixpoint to_text (element : Element) : exc string :=
  let fix each (cs : list Element) (result : option string) : exc (option string) :=
    match cs with
    | [] => Ok result
    | child :: cs' =>
        let* t := to_text child in
        let* r := iadd result (Some t) in
        each cs' (Some r)
    end in
  let* result := each (children element) (text element) in
  iadd result (tail element).

(** The loop of [to_text] as a function of its own. *)
Fixpoint texts (cs : list Element) (result : option string) : exc (option string) :=
  match cs with
  | [] => Ok result
  | child :: cs' =>
      let* t := to_text child in
      let* r := iadd result (Some t) in
      texts cs' (Some r)
  end.

(** Lines 38-39: the tag is rewritten when it is a key of [tag_mapping]. *)
Definition remap (element : Element) : Element :=
  match dict_get (tag element) tag_mapping with
  | Some t => set_tag element t
  | None => element
  end.

(** Lines 41-46, for an element that sits at position [pos] of [parent] and
    whose tag is not allowed.  [idx] is the value the variable of that name
    holds when line 42 is reached. *)
Definition splice (element parent : Element) (pos idx : nat) : exc Element :=
  let* parent :=
    (if Nat.eqb idx 0 then
       let* t := to_text element in
       let* r := iadd (text parent) (Some t) in
       Ok (set_text parent (Some r))
     else
       match children parent !! (idx - 1) with
       | None => Raise IndexError
       | Some sibling =>
           let* t := to_text element in
           let* r := iadd (tail sibling) (Some t) in
           Ok (set_children parent
                 (<[idx - 1 := set_tail sibling (Some r)]> (children parent)))
       end) in
  Ok (set_children parent (delete pos (children parent))).

(** [sanitize] (lines 34-46) and its loop (lines 35-36).

    [sanitize fuel element parent idx] returns the element and the parent
    as the call leaves them.  When there is a parent the element is its
    child at position [idx], as at the one call site (line 36).

    [each_child fuel element i idx] is the loop about to fetch the child at
    index [i]: iteration over an [Element] goes by index ([element[0]],
    [element[1]], ... until the index is out of range), on the list as it is
    at that moment.  The loop variable is the parameter [idx] itself, so the
    loop returns the value it leaves in [idx] along with the element. *)
Fixpoint sanitize (fuel : nat) (element : Element) (parent : option Element)
    (idx : nat) {struct fuel} : option (exc (Element * option Element)) :=
  match fuel with
  | 0 => None
  | S fuel =>
      let pos := idx in
      let+ (element, idx) := each_child fuel element 0 idx in
      let element := remap element in
      match parent with
      | None => Some (Ok (element, None))
      | Some parent =>
          let parent := set_children parent (<[pos := element]> (children parent)) in
          if allowed (tag element) then Some (Ok (element, Some parent))
          else
            match splice element parent pos idx with
            | Ok parent => Some (Ok (element, Some parent))
            | Raise e => Some (Raise e)
            end
      end
  end
with each_child (fuel : nat) (element : Element) (i idx : nat) {struct fuel}
    : option (exc (Element * nat)) :=
  match fuel with
  | 0 => None
  | S fuel =>
      match children element !! i with
      | None => Some (Ok (element, idx))
      | Some child =>
          let+ (_, parent) := sanitize fuel child (Some element) i in
          each_child fuel (default element parent) (S i) i
      end
  end.

(** [run] (lines 31-32).  Twice the number of nodes is fuel enough
    ([run_fuel_enough] below), so the last case of [run] does not occur. *)
Definition run_fuel (root : Element) : nat := 2 * size root.

Definition run (root : Element) : exc Element :=
  match sanitize (run_fuel root) root None 0 with
  | Some (Ok (root, _)) => Ok root
  | Some (Raise e) => Raise e
  | None => Raise RecursionError
  end.

End Sanitize.

(** ** The release synchroniser *)

Definition REPOSITORY : string := "kjarosh/ruffle".

(** The fields the script reads from an entry of [assets] and from the
    JSON object of a release.  A size is an integer; [str] of it is its
    decimal notation, [pretty]. *)
Record Asset : Type := mkAsset {
  asset_url : string;
  asset_size : Z
}.

Record JsonRelease : Type := mkJsonRelease {
  assets : list Asset;
  body : string;
  publishedAt : string;
  isPrerelease : bool;
  url : string
}.

(** Line 134. *)
Definition release_version (tag_name : string) : string :=
  lstrip ["v"%char] tag_name.

(** Lines 87-100: the platform of a file name, [None] where the loop
    continues with the next asset. *)
Definition classify (filename : string) : option (string * string) :=
  if endswith filename "-linux-x86_64.tar.gz" then
    Some ("binary", "x86_64-linux-gnu")
  else if endswith filename "-windows-x86_32.zip" then
    Some ("binary", "i386-windows-msvc")
  else if endswith filename "-windows-x86_64.zip" then
    Some ("binary", "x86_64-windows-msvc")
  else if endswith filename "-macos-universal.tar.gz" then
    Some ("binary", "any-macos-any")
  else None.

(** Lines 180-188 on the children of the root.  [scan] is the loop: the
    index at which it breaks, or [None] when it runs to the end. *)
Fixpoint scan (existing : list Element) (idx : nat) (xml_release : Element)
  : option nat :=
  match existing with
  | [] => None
  | existing_release :: rest =>
      if bool_decide (get existing_release "version" = get xml_release "version")
      then Some idx
      else scan rest (S idx) xml_release
  end.

Definition merge (releases : list Element) (xml_release : Element) : list Element :=
  match scan releases 0 xml_release with
  | Some idx => <[idx := xml_release]> releases
  | None => xml_release :: releases
  end.

Definition merge_release (root xml_release : Element) : Element :=
  set_children root (merge (children root) xml_release).

(** The file at [metainfo_releases_path]: its content ([None] when there is
    no such file) and the file operations of the run so far. *)
Inductive FileOp : Type :=
  | Write (data : string)
  | Append (data : string).

Record File : Type := mkFile {
  content : option string;
  ops : list FileOp
}.

Definition write_file (data : string) (f : File) : File :=
  mkFile (Some data) (ops f ++ [Write data]).

Definition append_file (data : string) (f : File) : File :=
  mkFile (Some (default "" (content f) +:+ data)) (ops f ++ [Append data]).

Definition newline : string := String "010"%char EmptyString.

(** The libraries and the [gh] client. *)
Class Library : Type := {
  (** [urlsplit(url).path] and [os.path.basename]. *)
  urlsplit_path : string -> string;
  basename : string -> string;
  (** [datetime.fromisoformat(s).strftime('%Y-%m-%d')]. *)
  isoformat_day : string -> exc string;
  (** [markdown.markdown] around the tree processor of the script: from the
      text to the tree the processor receives, and from the tree it leaves
      to the markup that is returned. *)
  markdown_tree : string -> exc Element;
  markdown_serialize : Element -> exc string;
  (** [xml.fromstring], [xml.parse] on the content of a file, [xml.indent]
      and the bytes [ElementTree.write] produces. *)
  xml_fromstring : string -> exc Element;
  xml_parse : string -> exc Element;
  xml_indent : Element -> Element;
  xml_tostring : Element -> string;
  (** [gh release list] and [gh release view] followed by [json.loads]: the
      [tagName] of each listed release ([None] where the key is missing),
      and the fields of one release. *)
  gh_release_list : exc (list (option string));
  gh_release_view : string -> exc JsonRelease
}.

Section Script.
Context `{Library}.

(** Lines 15-19. *)
Definition get_filename_from_url (url : option string) : option string :=
  match url with
  | None => None
  | Some url => Some (basename (urlsplit_path url))
  end.

(** Lines 61-64. *)
Definition generate_metainfo_description (description : string) : exc Element :=
  let* root := markdown_tree description in
  let* root := Sanitize.run root in
  let* md := markdown_serialize root in
  let description_html := "<description>" +:+ md +:+ "</description>" in
  xml_fromstring description_html.

(** Lines 102-119: the artifact of an asset whose file name has a known
    suffix. *)
Definition asset_artifact (asset : Asset) : option Element :=
  let filename := basename (urlsplit_path (asset_url asset)) in
  match classify filename with
  | None => None
  | Some (artifact_type, platform) =>
      let xml_artifact := new_element "artifact" in
      let xml_location := set_text (new_element "location") (Some (asset_url asset)) in
      let xml_filename := set_text (new_element "filename") (Some filename) in
      let xml_size := new_element "size" in
      let xml_size := set xml_size "type" "download" in
      let xml_size := set_text xml_size (Some (pretty (asset_size asset))) in
      let xml_artifact := set xml_artifact "type" artifact_type in
      let xml_artifact := set xml_artifact "platform" platform in
      let xml_artifact := append xml_artifact xml_location in
      let xml_artifact := append xml_artifact xml_filename in
      let xml_artifact := append xml_artifact xml_size in
      Some xml_artifact
  end.

(** Lines 67-121. *)
Definition generate_metainfo_artifacts (tag_name : string)
    (json_release : JsonRelease) : Element :=
  let xml_artifacts := new_element "artifacts" in
  let xml_artifact := new_element "artifact" in
  let xml_location :=
    set_text (new_element "location")
      (Some ("https://github.com/" +:+ REPOSITORY +:+ "/archive/refs/tags/"
             +:+ tag_name +:+ ".zip")) in
  let xml_filename :=
    set_text (new_element "filename") (Some ("ruffle-" +:+ tag_name +:+ ".zip")) in
  let xml_artifact := set xml_artifact "type" "source" in
  let xml_artifact := append xml_artifact xml_location in
  let xml_artifact := append xml_artifact xml_filename in
  let xml_artifacts := append xml_artifacts xml_artifact in
  fold_left
    (fun xml_artifacts asset =>
       match asset_artifact asset with
       | Some xml_artifact => append xml_artifacts xml_artifact
       | None => xml_artifacts
       end)
    (assets json_release) xml_artifacts.

(** Lines 124-160. *)
Definition generate_metainfo_release (tag_name : string) : exc Element :=
  let* json_release := gh_release_view tag_name in
  let version := release_version tag_name in
  let* date := isoformat_day (publishedAt json_release) in
  let url := url json_release in
  let release_type := if isPrerelease json_release then "snapshot" else "stable" in
  let xml_release := new_element "release" in
  let xml_release := set xml_release "version" version in
  let xml_release := set xml_release "date" date in
  let xml_release := set xml_release "type" release_type in
  let xml_url := set_text (new_element "url") (Some url) in
  let* xml_description := generate_metainfo_description (body json_release) in
  let xml_artifacts := generate_metainfo_artifacts tag_name json_release in
  let xml_release := append xml_release xml_url in
  let xml_release := append xml_release xml_description in
  let xml_release := append xml_release xml_artifacts in
  Ok xml_release.

(** Lines 177-188: the loop over the listed releases, oldest first. *)
Fixpoint sync_each (json_releases : list (option string)) (root : Element)
  : exc Element :=
  match json_releases with
  | [] => Ok root
  | json_release :: rest =>
      let* tag_name :=
        match json_release with
        | Some t => Ok t
        | None => Raise KeyError
        end in
      let* xml_release := generate_metainfo_release tag_name in
      sync_each rest (merge_release root xml_release)
  end.

(** Lines 164-188: everything before the file is written. *)
Definition sync_tree (f : File) : exc Element :=
  let* data :=
    match content f with
    | Some data => Ok data
    | None => Raise OSError
    end in
  let* xml_metainfo_releases := xml_parse data in
  let* json_releases := gh_release_list in
  sync_each (rev json_releases) xml_metainfo_releases.

(** Lines 190-193: the bytes written for a tree. *)
Definition serialized (root : Element) : string :=
  xml_tostring (xml_indent root).

(** Lines 163-194. *)
Definition sync_metainfo_releases (f : File) : exc unit * File :=
  match sync_tree f with
  | Raise e => (Raise e, f)
  | Ok xml_metainfo_releases =>
      let f := write_file (serialized xml_metainfo_releases) f in
      let f := append_file newline f in
      (Ok tt, f)
  end.

End Script.

(** ** Properties the specification states *)

(** Every element below the root carries an allowed tag. *)
Definition sanitized (root : Element) : Prop :=
  Forall (ForallElem (fun e => Sanitize.allowed (tag e) = true)) (children root).

(** The tag with a single leading ["v"] stripped if there is one. *)
Definition strip_single_v (tag_name : string) : string :=
  match tag_name with
  | String c rest => if Ascii.eqb c "v" then rest else tag_name
  | EmptyString => tag_name
  end.

(** [n] times the character ["v"]. *)
Fixpoint v_run (n : nat) : string :=
  match n with
  | 0 => EmptyString
  | S n' => String "v" (v_run n')
  end.

(** The version values of a collection, and their uniqueness. *)
Definition versions (releases : list Element) : list string :=
  omap (fun r => get r "version") releases.

Definition unique_versions (releases : list Element) : Prop :=
  NoDup (versions releases).

(** The classification table: suffix and platform. *)
Definition suffix_table : list (string * string) :=
  [ ("-linux-x86_64.tar.gz", "x86_64-linux-gnu");
    ("-windows-x86_32.zip", "i386-windows-msvc");
    ("-windows-x86_64.zip", "x86_64-windows-msvc");
    ("-macos-universal.tar.gz", "any-macos-any") ].

(** The artifact elements as the document format has them. *)
Definition text_element (t : string) (s : string) : Element :=
  mkElement t [] (Some s) None [].

Definition binary_artifact (platform location filename : string) (size : Z)
  : Element :=
  mkElement "artifact" [("type", "binary"); ("platform", platform)] None None
    [ text_element "location" location;
      text_element "filename" filename;
      mkElement "size" [("type", "download")] (Some (pretty size)) None [] ].

Definition source_artifact (tag_name : string) : Element :=
  mkElement "artifact" [("type", "source")] None None
    [ text_element "location"
        ("https://github.com/kjarosh/ruffle/archive/refs/tags/" +:+ tag_name +:+ ".zip");
      text_element "filename" ("ruffle-" +:+ tag_name +:+ ".zip") ].

(** The first record of [l] with the version of [x] is at index [j]. *)
Definition first_match (l : list Element) (x : Element) (j : nat) : Prop :=
  (exists old, l !! j = Some old /\ get old "version" = get x "version") /\
  forall k r, k < j -> l !! k = Some r -> get r "version" <> get x "version".

(** [r] itself is the first record of [l] with its version. *)
Definition settled (l : list Element) (r : Element) : Prop :=
  exists i, first_match l r i /\ l !! i = Some r.


Section RunProperties.
Context `{Library}.

(** The listed release [json_release] was built into [xml_release]. *)
Definition built (json_release : option string) (xml_release : Element) : Prop :=
  exists tag_name,
    json_release = Some tag_name /\
    generate_metainfo_release tag_name = Ok xml_release.



End RunProperties.

(** ** Properties read off the code *)




(** The tree with every tag remapped (lines 38-39) and nothing else
    changed. *)
Fixpoint remap_all (e : Element) : Element :=
  mkElement (tag (Sanitize.remap e)) (attrib e) (text e) (tail e)
    ((fix each (cs : list Element) : list Element :=
        match cs with
        | [] => []
        | c :: cs' => remap_all c :: each cs'
        end) (children e)).

(** Every node of the tree has an allowed tag once it is remapped. *)
Definition all_allowed (e : Element) : Prop :=
  ForallElem (fun n => Sanitize.allowed (tag (Sanitize.remap n)) = true) e.

(** The value the loop of [sanitize], started at child [i], leaves in
    [idx]: the index of the last child when the loop has run, the value
    passed otherwise. *)
Definition idx_after (element : Element) (i idx : nat) : nat :=
  if decide (i < length (children element))
  then length (children element) - 1 else idx.

(** The versions of the listed tags. *)
Definition listed_versions (json_releases : list (option string))
  : list (option string) :=
  map (option_map release_version) json_releases.

(** ** Example inputs *)

Module Examples.

Definition leaf (t : string) (tx tl : option string) : Element :=
  mkElement t [] tx tl [].

Definition nl : string := newline.

(** The tree of the notes

      # a

      ## b

    two headings side by side under the root. *)
Definition two_headings : Element :=
  mkElement "div" [] (Some nl) (Some nl)
    [leaf "h1" (Some "a") (Some nl); leaf "h2" (Some "b") (Some nl)].

Definition two_headings_out : Element :=
  mkElement "div" [] (Some (nl +:+ "a" +:+ nl)) (Some nl)
    [leaf "h2" (Some "b") (Some nl)].

(** The tree of the notes [x *E* [foo *bar* baz](http://u) y]: a paragraph
    whose second child, a link, has one child of its own. *)
Definition linked_paragraph : Element :=
  mkElement "div" [] (Some nl) (Some nl)
    [mkElement "p" [] (Some "x ") (Some nl)
       [leaf "em" (Some "E") (Some " ");
        mkElement "a" [("href", "http://u")] (Some "foo ") (Some " y")
          [leaf "em" (Some "bar") (Some " baz")]]].

(** What the sanitizer returns for it: the text of the link went to the
    front of the paragraph. *)
Definition linked_paragraph_out : Element :=
  mkElement "div" [] (Some nl) (Some nl)
    [mkElement "p" [] (Some "x foo bar baz y") (Some nl)
       [leaf "em" (Some "E") (Some " ")]].

(** What splicing after the preceding sibling gives. *)
Definition linked_paragraph_spliced : Element :=
  mkElement "div" [] (Some nl) (Some nl)
    [mkElement "p" [] (Some "x ") (Some nl)
       [leaf "em" (Some "E") (Some " foo bar baz y")]].

(** The tree of the notes [---]: a thematic break, which has a tail and no
    text. *)
Definition thematic_break : Element :=
  mkElement "div" [] (Some nl) (Some nl) [leaf "hr" None (Some nl)].

(** The tree of the notes [[docs](http://u)]: the link is the last child of
    its paragraph and has no tail; the paragraph has no text. *)
Definition lone_link : Element :=
  mkElement "div" [] (Some nl) (Some nl)
    [mkElement "p" [] None (Some nl)
       [mkElement "a" [("href", "http://u")] (Some "docs") None []]].

(** The tree of the notes [**Fixed** bugs.]. *)
Definition fixed_bugs : Element :=
  mkElement "div" [] (Some nl) (Some nl)
    [mkElement "p" [] None (Some nl) [leaf "strong" (Some "Fixed") (Some " bugs.")]].

(** A small stand-in for the libraries, enough to run the script on the
    release [v1.2.0] of the specification's scenario. *)

(** Everything after the last slash. *)
Fixpoint basename_from (segment path : string) : string :=
  match path with
  | EmptyString => segment
  | String c rest =>
      if Ascii.eqb c "/" then basename_from EmptyString rest
      else basename_from (segment +:+ String c EmptyString) rest
  end.

(** A plain printer of elements. *)
Fixpoint to_xml (e : Element) : string :=
  "<" +:+ tag e
  +:+ fold_right (fun kv s => " " +:+ fst kv +:+ "='" +:+ snd kv +:+ "'" +:+ s)
        EmptyString (attrib e)
  +:+ ">" +:+ default EmptyString (text e)
  +:+ (fix each (cs : list Element) : string :=
         match cs with
         | [] => EmptyString
         | c :: cs' => to_xml c +:+ each cs'
         end) (children e)
  +:+ "</" +:+ tag e +:+ ">" +:+ default EmptyString (tail e).

(** A reader that knows a fixed list of documents. *)
Definition read_known (known : list Element) (suffix data : string) : exc Element :=
  match List.find (fun t => String.eqb (to_xml t +:+ suffix) data) known with
  | Some t => Ok t
  | None => Raise ParseError
  end.

Definition linux_asset : Asset :=
  mkAsset "https://example.org/download/v1.2.0/ruffle-1.2.0-linux-x86_64.tar.gz" 1000.
Definition readme_asset : Asset :=
  mkAsset "https://example.org/download/v1.2.0/ruffle-1.2.0-readme.txt" 12.

Definition release_1_2_0 : JsonRelease :=
  mkJsonRelease [linux_asset; readme_asset] "**Fixed** bugs."
    "2024-05-06T07:08:09Z" false "https://example.org/releases/v1.2.0".

Definition description_1_2_0 : Element :=
  mkElement "description" [] None None
    [mkElement "p" [] None None [leaf "em" (Some "Fixed") (Some " bugs.")]].

Definition record_1_2_0 : Element :=
  mkElement "release"
    [("version", "1.2.0"); ("date", "2024-05-06"); ("type", "stable")] None None
    [ text_element "url" "https://example.org/releases/v1.2.0";
      description_1_2_0;
      mkElement "artifacts" [] None None
        [ source_artifact "v1.2.0";
          binary_artifact "x86_64-linux-gnu" (asset_url linux_asset)
            "ruffle-1.2.0-linux-x86_64.tar.gz" 1000 ] ].

Definition old_record (version : string) : Element :=
  mkElement "release" [("version", version); ("date", "2020-01-01"); ("type", "stable")]
    None None [].

Definition releases_before : Element :=
  mkElement "releases" [] None None [old_record "1.1.0"; old_record "1.0.0"].

Definition releases_after : Element :=
  mkElement "releases" [] None None
    [record_1_2_0; old_record "1.1.0"; old_record "1.0.0"].

#[local] Instance demo : Library := {|
  urlsplit_path := fun u => u;
  basename := basename_from EmptyString;
  isoformat_day := fun s => Ok (substring 0 10 s);
  markdown_tree := fun text =>
    if String.eqb text "**Fixed** bugs." then Ok fixed_bugs else Raise ValueError;
  markdown_serialize := fun root => Ok (to_xml root);
  xml_fromstring := fun data =>
    if String.eqb (substring 0 13 data) "<description>" then Ok description_1_2_0
    else Raise ParseError;
  xml_parse := read_known [releases_before; releases_after] newline;
  xml_indent := fun root => root;
  xml_tostring := to_xml;
  gh_release_list := Ok [Some "v1.2.0"];
  gh_release_view := fun tag_name =>
    if String.eqb tag_name "v1.2.0" then Ok release_1_2_0 else Raise JSONDecodeError
|}.


Definition file_before : File :=
  mkFile (Some (to_xml releases_before +:+ newline)) [].


(** A release whose notes are a thematic break. *)
Definition release_with_rule : JsonRelease :=
  mkJsonRelease [] "---" "2024-07-08T09:10:11Z" false
    "https://example.org/releases/v1.3.0".

#[local] Instance demo_rule : Library := {|
  urlsplit_path := fun u => u;
  basename := basename_from EmptyString;
  isoformat_day := fun s => Ok (substring 0 10 s);
  markdown_tree := fun text =>
    if String.eqb text "---" then Ok thematic_break else Raise ValueError;
  markdown_serialize := fun root => Ok (to_xml root);
  xml_fromstring := fun data => Raise ParseError;
  xml_parse := read_known [releases_before; releases_after] newline;
  xml_indent := fun root => root;
  xml_tostring := to_xml;
  gh_release_list := Ok [Some "v1.3.0"];
  gh_release_view := fun tag_name =>
    if String.eqb tag_name "v1.3.0" then Ok release_with_rule
    else Raise JSONDecodeError
|}.

End Examples.

(** * Facts *)

Lemma size_children e : size e = S (sizes (children e)).
Proof.
  destruct e as [t a tx tl cs]; unfold sizes; simpl. f_equal.
  induction cs as [|c cs IH]; simpl; [reflexivity | now rewrite IH].
Qed.

Lemma size_pos e : 0 < size e.
Proof. rewrite size_children. lia. Qed.

Lemma sizes_cons c cs : sizes (c :: cs) = size c + sizes cs.
Proof. reflexivity. Qed.

Lemma sizes_drop_lookup (cs : list Element) i c :
  cs !! i = Some c -> sizes (drop i cs) = size c + sizes (drop (S i) cs).
Proof.
  revert i; induction cs as [|x cs IH]; intros [|i] H; simpl in *; try discriminate.
  - injection H as ->. now rewrite drop_0.
  - now apply IH.
Qed.

Lemma sizes_drop_S_le (cs : list Element) i :
  sizes (drop (S i) cs) <= sizes (drop i cs).
Proof.
  revert i; induction cs as [|x cs IH]; intros [|i]; simpl; try lia.
  - rewrite drop_0. unfold sizes; simpl. lia.
  - apply IH.
Qed.

Lemma drop_S_insert_le (cs : list Element) i j x :
  j <= i -> drop (S i) (<[j := x]> cs) = drop (S i) cs.
Proof.
  revert i j; induction cs as [|c cs IH]; intros i [|j] Hj; simpl; try reflexivity.
  - destruct i; [lia|]. simpl. apply IH. lia.
Qed.

Lemma drop_S_delete (cs : list Element) i :
  drop (S i) (delete i cs) = drop (S (S i)) cs.
Proof.
  revert i; induction cs as [|c cs IH]; intros [|i]; simpl; try reflexivity.
  apply IH.
Qed.

Lemma size_set_tail s t : size (set_tail s t) = size s.
Proof. now rewrite !size_children. Qed.

Lemma sizes_insert_tail (cs : list Element) j s t :
  cs !! j = Some s -> map size (<[j := set_tail s t]> cs) = map size cs.
Proof.
  revert j; induction cs as [|c cs IH]; intros [|j] H; try discriminate.
  - injection H as ->.
    change (size (set_tail s t) :: map size cs = size s :: map size cs).
    now rewrite size_set_tail.
  - change (size c :: map size (<[j := set_tail s t]> cs) = size c :: map size cs).
    f_equal. now apply IH.
Qed.

Module SanitizeFacts.
Import Sanitize.

Lemma to_text_eq element :
  to_text element =
  (let* result := texts (children element) (text element) in
   iadd result (tail element)).
Proof.
  destruct element as [t a tx tl cs]; simpl.
  generalize tx. induction cs as [|c cs IH]; intros acc; simpl; [reflexivity|].
  destruct (to_text c) as [s|e]; simpl; [|reflexivity].
  destruct (iadd acc (Some s)) as [r|e]; simpl; [|reflexivity].
  apply IH.
Qed.

Lemma iadd_raises a b e : iadd a b = Raise e -> e = TypeError.
Proof. destruct a, b; simpl; congruence. Qed.

(** The only exception [to_text] raises is [TypeError]. *)
Lemma to_text_raises element e : to_text element = Raise e -> e = TypeError.
Proof.
  revert e. induction element as [t a tx tl cs IH] using Element_nested_ind.
  intros e. rewrite to_text_eq; simpl.
  assert (Hcs : forall acc err, texts cs acc = Raise err -> err = TypeError).
  { induction IH as [|c cs Hc _ IHcs]; intros acc err; simpl; [discriminate|].
    destruct (to_text c) as [s|e'] eqn:Ec; simpl.
    - destruct (iadd acc (Some s)) as [r|e'] eqn:Er; simpl.
      + apply IHcs.
      + intros [= <-]. eapply iadd_raises, Er.
    - intros [= <-]. now apply Hc. }
  destruct (texts cs tx) as [r|e'] eqn:Et; simpl.
  - apply iadd_raises.
  - intros [= <-]. eapply Hcs, Et.
Qed.

Lemma texts_none cs : exists e, texts cs None = Raise e \/ (cs = [] /\ texts cs None = Ok None).
Proof.
  destruct cs as [|c cs]; simpl.
  - exists TypeError. now right.
  - destruct (to_text c) as [s|e]; simpl; eauto.
Qed.

(** An element whose [text] or [tail] is [None] has no textual content:
    the concatenation fails. *)
Lemma to_text_none element :
  text element = None \/ tail element = None ->
  to_text element = Raise TypeError.
Proof.
  intros H.
  destruct (to_text element) as [s|e] eqn:E.
  - exfalso. rewrite to_text_eq in E. destruct H as [H|H]; rewrite H in E.
    + destruct (texts_none (children element)) as [e [He|[_ He]]];
        rewrite He in E; simpl in E; discriminate.
    + destruct (texts (children element) (text element)) as [[r|]|e];
        simpl in E; discriminate.
  - f_equal. eapply to_text_raises, E.
Qed.

(** Fuel: twice the number of nodes is enough for [sanitize]. *)
Lemma splice_children element parent pos idx q :
  splice element parent pos idx = Ok q ->
  sizes (drop (S pos) (children q)) <= sizes (drop (S pos) (children parent)).
Proof.
  unfold splice. destruct (Nat.eqb idx 0).
  - destruct (to_text element) as [t|]; simpl; [|discriminate].
    destruct (iadd (text parent) (Some t)) as [r|]; simpl; [|discriminate].
    intros [= <-]; simpl. rewrite drop_S_delete. apply sizes_drop_S_le.
  - destruct (children parent !! (idx - 1)) as [s|] eqn:Es; simpl; [|discriminate].
    destruct (to_text element) as [t|]; simpl; [|discriminate].
    destruct (iadd (tail s) (Some t)) as [r|]; simpl; [|discriminate].
    intros [= <-]; simpl. rewrite drop_S_delete.
    unfold sizes. rewrite <- !skipn_map.
    rewrite (sizes_insert_tail _ _ _ _ Es).
    rewrite !skipn_map. apply (sizes_drop_S_le (children parent) (S pos)).
Qed.

Lemma sanitize_parent fuel element parent idx r p :
  sanitize fuel element (Some parent) idx = Some (Ok (r, p)) ->
  exists q, p = Some q /\
    sizes (drop (S idx) (children q)) <= sizes (drop (S idx) (children parent)).
Proof.
  destruct fuel as [|fuel]; simpl; [discriminate|].
  unfold fuel_bind.
  destruct (each_child fuel element 0 idx) as [[[e' idx']|]|]; try discriminate.
  destruct (allowed (tag (remap e'))).
  - intros [= <- <-]. eexists; split; [reflexivity|]. simpl.
    now rewrite drop_S_insert_le.
  - destruct (splice _ _ _ _) as [q|] eqn:Eq; [|discriminate].
    intros [= <- <-]. eexists; split; [reflexivity|].
    apply splice_children in Eq. simpl in Eq.
    now rewrite drop_S_insert_le in Eq.
Qed.

Lemma sanitize_fuel fuel :
  (forall element parent idx,
     2 * size element <= fuel -> sanitize fuel element parent idx <> None) /\
  (forall element i idx,
     2 * sizes (drop i (children element)) + 1 <= fuel ->
     each_child fuel element i idx <> None).
Proof.
  induction fuel as [|fuel [IHs IHe]]; split.
  - intros element ? ? H. pose proof (size_pos element). lia.
  - intros; lia.
  - intros element parent idx H. simpl. unfold fuel_bind.
    rewrite size_children in H.
    specialize (IHe element 0 idx). rewrite drop_0 in IHe.
    destruct (each_child fuel element 0 idx) as [[[e' idx']|]|]; try discriminate.
    + destruct parent as [parent|]; [|discriminate].
      destruct (allowed _); [discriminate|]. now destruct (splice _ _ _ _).
    + exfalso. apply IHe; [lia | reflexivity].
  - intros element i idx H. simpl.
    destruct (children element !! i) as [child|] eqn:Ec; [|discriminate].
    rewrite (sizes_drop_lookup _ _ _ Ec) in H.
    unfold fuel_bind.
    destruct (sanitize fuel child (Some element) i) as [[[r p]|]|] eqn:Es;
      try discriminate.
    + destruct (sanitize_parent _ _ _ _ _ _ Es) as [q [-> Hq]]. simpl.
      apply IHe. pose proof (size_pos child). lia.
    + exfalso. revert Es. apply IHs. lia.
Qed.

(** An element without children reaches line 41 with [idx] as it was
    passed: a disallowed one is spliced at its own position. *)
Lemma sanitize_childless fuel element parent pos :
  children element = [] ->
  allowed (tag (remap element)) = false ->
  sanitize (S (S fuel)) element (Some parent) pos =
  match splice (remap element)
          (set_children parent (<[pos := remap element]> (children parent)))
          pos pos with
  | Ok parent' => Some (Ok (remap element, Some parent'))
  | Raise e => Some (Raise e)
  end.
Proof. intros Hc Ha. simpl. rewrite Hc. simpl. now rewrite Ha. Qed.

(** [run] never falls back on its fuel. *)
Lemma run_fuel_enough root : sanitize (run_fuel root) root None 0 <> None.
Proof. apply sanitize_fuel. unfold run_fuel. lia. Qed.

End SanitizeFacts.

(** ** Facts about strings *)

Lemma app_String c a b : String c a +:+ b = String c (a +:+ b).
Proof. reflexivity. Qed.

Lemma app_Empty b : EmptyString +:+ b = b.
Proof. reflexivity. Qed.

Lemma substring_all s : substring 0 (String.length s) s = s.
Proof. induction s as [|c s IH]; simpl; [reflexivity | now rewrite IH]. Qed.

Lemma substring_app_suffix pre suf :
  substring (String.length pre) (String.length suf) (pre +:+ suf) = suf.
Proof.
  induction pre as [|c pre IH].
  - rewrite app_Empty. apply substring_all.
  - rewrite app_String. simpl. exact IH.
Qed.

Lemma substring_split s k :
  k <= String.length s ->
  s = substring 0 k s +:+ substring k (String.length s - k) s.
Proof.
  revert k; induction s as [|c s IH]; intros [|k] Hk; simpl in *; try lia.
  - reflexivity.
  - rewrite app_Empty. now rewrite substring_all.
  - rewrite app_String. f_equal. apply IH. lia.
Qed.

Lemma length_app_string a b :
  String.length (a +:+ b) = String.length a + String.length b.
Proof.
  induction a as [|c a IH]; [reflexivity|].
  rewrite app_String. simpl. now rewrite IH.
Qed.

(** [endswith] holds exactly of the strings that are something followed by
    the suffix. *)
Lemma endswith_spec s suffix :
  endswith s suffix = true <-> exists pre, s = pre +:+ suffix.
Proof.
  unfold endswith; split.
  - intros H. apply andb_prop in H as [Hle Heq].
    apply Nat.leb_le in Hle. apply String.eqb_eq in Heq.
    exists (substring 0 (String.length s - String.length suffix) s).
    pose proof (substring_split s (String.length s - String.length suffix)
                  ltac:(lia)) as Hs.
    replace (String.length s - (String.length s - String.length suffix))
      with (String.length suffix) in Hs by lia.
    now rewrite Heq in Hs.
  - intros [pre ->]. rewrite length_app_string.
    apply andb_true_intro; split.
    + apply Nat.leb_le. lia.
    + replace (String.length pre + String.length suffix - String.length suffix)
        with (String.length pre) by lia.
      rewrite substring_app_suffix. apply String.eqb_refl.
Qed.

Lemma app_eq_app_string p a q b :
  p +:+ a = q +:+ b -> (exists r, a = r +:+ b) \/ (exists r, b = r +:+ a).
Proof.
  revert q; induction p as [|c p IH]; intros q H.
  - left. now exists q.
  - destruct q as [|d q].
    + right. exists (String c p). symmetry. exact H.
    + rewrite !app_String in H. injection H as _ H. now apply IH in H.
Qed.

(** Two suffixes of one string: one of them is a suffix of the other. *)
Lemma endswith_both s a b :
  endswith s a = true -> endswith s b = true ->
  endswith a b = true \/ endswith b a = true.
Proof.
  rewrite !endswith_spec. intros [p ->] [q H].
  destruct (app_eq_app_string _ _ _ _ H) as [[r Hr]|[r Hr]]; eauto.
Qed.


(** ** Versions and artifacts *)

Lemma lstrip_v_run tag_name :
  exists n, tag_name = v_run n +:+ release_version tag_name.
Proof.
  unfold release_version.
  induction tag_name as [|c s [n IH]].
  - now exists 0.
  - simpl. rewrite orb_false_r. destruct (Ascii.eqb_spec c "v") as [-> | Hc].
    + exists (S n). simpl. rewrite app_String. now f_equal.
    + now exists 0.
Qed.

Lemma lstrip_v_head tag_name rest : release_version tag_name <> String "v" rest.
Proof.
  unfold release_version.
  induction tag_name as [|c s IH]; simpl; [discriminate|].
  rewrite orb_false_r. destruct (Ascii.eqb_spec c "v") as [-> | Hc]; [exact IH|].
  intros [= -> _]. now apply Hc.
Qed.

Section ScriptFacts.
Context `{Library}.

Lemma release_has_version tag_name xml_release :
  generate_metainfo_release tag_name = Ok xml_release ->
  get xml_release "version" = Some (release_version tag_name).
Proof.
  unfold generate_metainfo_release.
  destruct (gh_release_view tag_name) as [j|]; simpl; [|discriminate].
  destruct (isoformat_day (publishedAt j)) as [d|]; simpl; [|discriminate].
  destruct (generate_metainfo_description (body j)) as [x|]; simpl; [|discriminate].
  intros [= <-]. reflexivity.
Qed.

Lemma fold_artifacts (l : list Asset) (acc : Element) :
  children
    (fold_left
       (fun xml_artifacts asset =>
          match asset_artifact asset with
          | Some xml_artifact => append xml_artifacts xml_artifact
          | None => xml_artifacts
          end) l acc)
  = children acc ++ omap asset_artifact l.
Proof.
  revert acc; induction l as [|a l IH]; intros acc; simpl.
  - now rewrite app_nil_r.
  - rewrite IH. destruct (asset_artifact a) as [x|]; simpl; [|reflexivity].
    now rewrite <- app_assoc.
Qed.

Lemma artifacts_children tag_name json_release :
  children (generate_metainfo_artifacts tag_name json_release)
  = source_artifact tag_name :: omap asset_artifact (assets json_release).
Proof. unfold generate_metainfo_artifacts. now rewrite fold_artifacts. Qed.

Lemma asset_artifact_type asset xml_artifact :
  asset_artifact asset = Some xml_artifact ->
  get xml_artifact "type" = Some "binary".
Proof.
  unfold asset_artifact, classify.
  repeat match goal with
         | |- context [if ?b then _ else _] => destruct b
         end; intros [= <-]; reflexivity.
Qed.

End ScriptFacts.

(** No suffix of the table is a suffix of another one. *)
Lemma suffixes_apart s1 p1 s2 p2 :
  (s1, p1) ∈ suffix_table -> (s2, p2) ∈ suffix_table -> s1 <> s2 ->
  endswith s1 s2 = false.
Proof.
  intros H1 H2.
  apply list_elem_of_In in H1, H2. simpl in H1, H2.
  repeat match goal with
         | H : _ \/ _ |- _ => destruct H as [H|H]
         | H : (_, _) = (_, _) |- _ => injection H as <- <-
         | H : False |- _ => destruct H
         end;
    (intros Hne; try reflexivity; now contradiction Hne).
Qed.

Lemma suffix_unique filename s1 p1 s2 p2 :
  (s1, p1) ∈ suffix_table -> (s2, p2) ∈ suffix_table ->
  endswith filename s1 = true -> endswith filename s2 = true -> s1 = s2.
Proof.
  intros H1 H2 E1 E2.
  destruct (String.eqb_spec s1 s2) as [|Hne]; [assumption|exfalso].
  destruct (endswith_both _ _ _ E1 E2) as [E|E].
  - rewrite (suffixes_apart _ _ _ _ H1 H2 Hne) in E. discriminate.
  - rewrite (suffixes_apart _ _ _ _ H2 H1) in E; [discriminate | congruence].
Qed.

(** [classify] looks the suffix up in the table. *)
Lemma classify_suffix filename suffix platform :
  (suffix, platform) ∈ suffix_table -> endswith filename suffix = true ->
  classify filename = Some ("binary", platform).
Proof.
  intros Hin E.
  assert (Hu : forall s p, (s, p) ∈ suffix_table -> s <> suffix ->
                           endswith filename s = false).
  { intros s p Hs Hne. destruct (endswith filename s) eqn:Es; [|reflexivity].
    exfalso. apply Hne. eapply suffix_unique; eauto. }
  unfold classify.
  pose proof Hin as Hin'. apply list_elem_of_In in Hin'. simpl in Hin'.
  destruct Hin' as [Hc|[Hc|[Hc|[Hc|[]]]]]; injection Hc as <- <-.
  - now rewrite E.
  - rewrite (Hu "-linux-x86_64.tar.gz" "x86_64-linux-gnu");
      [now rewrite E | apply list_elem_of_In; simpl; tauto | discriminate].
  - rewrite (Hu "-linux-x86_64.tar.gz" "x86_64-linux-gnu");
      [| apply list_elem_of_In; simpl; tauto | discriminate].
    rewrite (Hu "-windows-x86_32.zip" "i386-windows-msvc");
      [now rewrite E | apply list_elem_of_In; simpl; tauto | discriminate].
  - rewrite (Hu "-linux-x86_64.tar.gz" "x86_64-linux-gnu");
      [| apply list_elem_of_In; simpl; tauto | discriminate].
    rewrite (Hu "-windows-x86_32.zip" "i386-windows-msvc");
      [| apply list_elem_of_In; simpl; tauto | discriminate].
    rewrite (Hu "-windows-x86_64.zip" "x86_64-windows-msvc");
      [now rewrite E | apply list_elem_of_In; simpl; tauto | discriminate].
Qed.

Lemma classify_none filename :
  (forall suffix platform,
     (suffix, platform) ∈ suffix_table -> endswith filename suffix = false) ->
  classify filename = None.
Proof.
  intros Hn. unfold classify.
  rewrite (Hn "-linux-x86_64.tar.gz" "x86_64-linux-gnu")
    by (apply list_elem_of_In; simpl; tauto).
  rewrite (Hn "-windows-x86_32.zip" "i386-windows-msvc")
    by (apply list_elem_of_In; simpl; tauto).
  rewrite (Hn "-windows-x86_64.zip" "x86_64-windows-msvc")
    by (apply list_elem_of_In; simpl; tauto).
  rewrite (Hn "-macos-universal.tar.gz" "any-macos-any")
    by (apply list_elem_of_In; simpl; tauto).
  reflexivity.
Qed.

(** ** The sanitizer on rendered release notes *)

Module SanitizeClaims.
Import Sanitize SanitizeFacts Examples.

(** C1 (fails on the code).  A disallowed element that immediately follows
    an elided sibling is never visited: removing the first heading moves the
    second one to the index the loop has just left, so it survives with its
    tag. *)
Theorem sanitize_skips_after_elision :
  run two_headings = Ok two_headings_out /\
  ~ sanitized two_headings_out /\
  Exists (fun e => tag e = "h2" /\ allowed (tag e) = false)
    (children two_headings_out).
Proof.
  split; [reflexivity|]. split.
  - intros Hs. apply Forall_inv in Hs. inversion Hs as [e Ha _]. discriminate Ha.
  - apply Exists_cons_hd. split; reflexivity.
Qed.

(** C2 (fails on the code).  The elided link is the second child of its
    paragraph, yet its text is added to the paragraph's leading text and not
    to the trailing text of the sibling before it: the loop over the link's
    one child has left 0 in [idx]. *)
Theorem sanitize_splices_at_loop_index :
  run linked_paragraph = Ok linked_paragraph_out /\
  linked_paragraph_out <> linked_paragraph_spliced.
Proof. split; [reflexivity | discriminate]. Qed.

(** C10.  The sanitizer is partial: the trees of a thematic break and of a
    lone link make it raise [TypeError]; for every element whose [text] or
    [tail] is [None], [to_text] raises [TypeError] and the splice raises
    (a [TypeError] whenever the place to splice into exists). *)
Theorem sanitize_not_total :
  run thematic_break = Raise TypeError /\
  run lone_link = Raise TypeError /\
  forall element,
    text element = None \/ tail element = None ->
    to_text element = Raise TypeError /\
    forall parent pos idx,
      (exists e, splice element parent pos idx = Raise e) /\
      (idx = 0 \/ is_Some (children parent !! (idx - 1)) ->
       splice element parent pos idx = Raise TypeError).
Proof.
  split; [reflexivity|]. split; [reflexivity|].
  intros element Hn. pose proof (to_text_none element Hn) as Ht.
  split; [exact Ht|]. intros parent pos idx.
  assert (Hs : idx = 0 \/ is_Some (children parent !! (idx - 1)) ->
               splice element parent pos idx = Raise TypeError).
  { unfold splice. rewrite Ht. intros [-> | [s Hs]]; [reflexivity|].
    destruct (Nat.eqb idx 0); [reflexivity|]. now rewrite Hs. }
  split; [|exact Hs].
  destruct (Nat.eq_dec idx 0) as [-> | Hne].
  - exists TypeError. apply Hs. now left.
  - destruct (children parent !! (idx - 1)) as [s|] eqn:Es.
    + exists TypeError. apply Hs. right. now exists s.
    + exists IndexError. unfold splice. rewrite Es.
      destruct (Nat.eqb_spec idx 0); [contradiction | reflexivity].
Qed.

Lemma sanitize_not_total_witness :
  to_text (leaf "hr" None (Some nl)) = Raise TypeError.
Proof.
  apply (proj2 (proj2 sanitize_not_total) (leaf "hr" None (Some nl))).
  left. reflexivity.
Defined.

End SanitizeClaims.

(** ** Versions and artifacts of a release *)

Module ReleaseClaims.
Import Examples.

(** C3 (as the specification words it, refuted).  For the tag [vv1.0] the
    version is [1.0]: both leading characters are gone. *)
Lemma version_of_double_v :
  release_version "vv1.0" = "1.0" /\
  release_version "vv1.0" <> strip_single_v "vv1.0".
Proof. split; [reflexivity | discriminate]. Qed.

(** C3 (amended).  The version is the tag with every leading ["v"] stripped:
    the tag is a run of ["v"] followed by the version, the version does not
    begin with ["v"], and it is the [version] attribute of the record that
    is built. *)
Theorem version_strips_every_v `{Library} (tag_name : string) :
  (exists n, tag_name = v_run n +:+ release_version tag_name) /\
  (forall rest, release_version tag_name <> String "v" rest) /\
  (forall xml_release,
     generate_metainfo_release tag_name = Ok xml_release ->
     get xml_release "version" = Some (release_version tag_name)).
Proof.
  split; [apply lstrip_v_run|]. split; [apply lstrip_v_head|].
  apply release_has_version.
Qed.

Lemma version_strips_every_v_witness :
  get record_1_2_0 "version" = Some (release_version "v1.2.0").
Proof.
  apply (proj2 (proj2 (version_strips_every_v (H := demo) "v1.2.0"))).
  vm_compute. reflexivity.
Defined.

(** C8.  The artifacts after the first are those of the assets, in order,
    and the artifact of an asset is decided by the suffix of its file name:
    a suffix of the table gives a binary artifact with the platform of the
    table, the URL, the file name and the size of the asset; a file name
    with none of the suffixes gives no artifact. *)
Theorem classification_by_suffix `{Library} (tag_name : string)
    (json_release : JsonRelease) :
  children (generate_metainfo_artifacts tag_name json_release)
  = source_artifact tag_name :: omap asset_artifact (assets json_release) /\
  forall asset,
    let filename := basename (urlsplit_path (asset_url asset)) in
    (forall suffix platform stem,
       (suffix, platform) ∈ suffix_table ->
       filename = stem +:+ suffix ->
       asset_artifact asset
       = Some (binary_artifact platform (asset_url asset) filename (asset_size asset))) /\
    ((forall suffix platform stem,
        (suffix, platform) ∈ suffix_table -> filename <> stem +:+ suffix) ->
     asset_artifact asset = None).
Proof.
  split; [apply artifacts_children|].
  intros asset filename; split.
  - intros suffix platform stem Hin Hf.
    unfold asset_artifact. fold filename.
    rewrite (classify_suffix filename suffix platform Hin); [reflexivity|].
    apply endswith_spec. now exists stem.
  - intros Hn. unfold asset_artifact. fold filename.
    rewrite classify_none; [reflexivity|].
    intros suffix platform Hin.
    destruct (endswith filename suffix) eqn:E; [|reflexivity].
    apply endswith_spec in E as [stem E].
    exfalso. exact (Hn suffix platform stem Hin E).
Qed.

Lemma classification_by_suffix_witness :
  asset_artifact (H := demo) linux_asset
  = Some (binary_artifact "x86_64-linux-gnu" (asset_url linux_asset)
            "ruffle-1.2.0-linux-x86_64.tar.gz" 1000).
Proof.
  apply (proj1 (proj2 (classification_by_suffix (H := demo) "v1.2.0" release_1_2_0)
                  linux_asset)
           "-linux-x86_64.tar.gz" "x86_64-linux-gnu" "ruffle-1.2.0").
  - apply list_elem_of_In. simpl. tauto.
  - vm_compute. reflexivity.
Defined.

(** C9.  The first artifact is the source artifact of the tag, which does
    not depend on the assets; every artifact after it is a binary one, so it
    is the only artifact of type [source]. *)
Theorem source_artifact_first `{Library} (tag_name : string)
    (json_release : JsonRelease) :
  get (source_artifact tag_name) "type" = Some "source" /\
  (exists location filename,
     children (source_artifact tag_name) = [location; filename] /\
     tag location = "location" /\
     text location =
       Some ("https://github.com/" +:+ REPOSITORY +:+ "/archive/refs/tags/"
             +:+ tag_name +:+ ".zip") /\
     tag filename = "filename" /\
     text filename = Some ("ruffle-" +:+ tag_name +:+ ".zip")) /\
  exists rest,
    children (generate_metainfo_artifacts tag_name json_release)
    = source_artifact tag_name :: rest /\
    Forall (fun a => get a "type" = Some "binary") rest.
Proof.
  split; [reflexivity|]. split.
  - eexists _, _. split; [reflexivity|]. repeat split.
  - exists (omap asset_artifact (assets json_release)).
    split; [apply artifacts_children|].
    apply Forall_forall. intros a Ha.
    apply list_elem_of_omap in Ha as [asset [_ Ha]].
    eapply asset_artifact_type, Ha.
Qed.

End ReleaseClaims.

(** ** Merging a record into the collection *)

Module MergeFacts.

Abbreviation key e := (get e "version").

Lemma scan_Some l n x i :
  scan l n x = Some i -> exists j, i = n + j /\ first_match l x j.
Proof.
  revert n i; induction l as [|a l IH]; intros n i; simpl; [discriminate|].
  case_bool_decide as Ha.
  - intros [= <-]. exists 0. split; [lia|]. split.
    + now exists a.
    + intros k r Hk. lia.
  - intros Hs. apply IH in Hs as [j [-> [[old [Hj Hold]] Hfirst]]].
    exists (S j). split; [lia|]. split.
    + now exists old.
    + intros [|k] r Hk; simpl.
      * now intros [= <-].
      * apply Hfirst. lia.
Qed.

Lemma scan_None l n x :
  scan l n x = None -> Forall (fun r => key r <> key x) l.
Proof.
  revert n; induction l as [|a l IH]; intros n; simpl; [constructor|].
  case_bool_decide as Ha; [discriminate|].
  intros Hs. constructor; [exact Ha | eapply IH, Hs].
Qed.

Lemma scan_first l n x j : first_match l x j -> scan l n x = Some (n + j).
Proof.
  revert n j; induction l as [|a l IH]; intros n j [[old [Hj Hold]] Hfirst].
  - discriminate.
  - simpl. case_bool_decide as Ha.
    + destruct j as [|j]; [f_equal; lia|].
      exfalso. apply (Hfirst 0 a); [lia | reflexivity | exact Ha].
    + destruct j as [|j].
      * simpl in Hj. injection Hj as ->. contradiction.
      * replace (n + S j) with (S n + j) by lia. apply IH. split.
        -- now exists old.
        -- intros k r Hk Hr. apply (Hfirst (S k) r); [lia | exact Hr].
Qed.


Lemma scan_0 l x i : scan l 0 x = Some i <-> first_match l x i.
Proof.
  split.
  - intros Hs. apply scan_Some in Hs as [j [-> Hj]]. exact Hj.
  - intros Hi. apply (scan_first l 0) in Hi. exact Hi.
Qed.

Lemma scan_lt l x i : scan l 0 x = Some i -> i < length l.
Proof.
  intros Hs. apply scan_0 in Hs as [[old [Hi _]] _].
  eapply lookup_lt_Some, Hi.
Qed.

(** Only the versions matter to [scan]. *)
Lemma scan_key l n x y : key x = key y -> scan l n x = scan l n y.
Proof.
  intros Hk. revert n; induction l as [|a l IH]; intros n; simpl; [reflexivity|].
  rewrite Hk, IH. reflexivity.
Qed.

Lemma scan_keys l l' n x :
  Forall2 (fun a b => key a = key b) l l' -> scan l n x = scan l' n x.
Proof.
  intros Hl. revert n; induction Hl as [|a b l l' Hab _ IH]; intros n; simpl;
    [reflexivity|].
  rewrite Hab, IH. reflexivity.
Qed.

Lemma keys_insert (l : list Element) i old new :
  l !! i = Some old -> key old = key new ->
  Forall2 (fun a b => key a = key b) (<[i := new]> l) l.
Proof.
  revert i; induction l as [|a l IH]; intros [|i] Hi Hk; simpl in *;
    try discriminate.
  - injection Hi as ->. constructor; [congruence|].
    apply Forall2_same_length_lookup_2; [reflexivity|]. intros; congruence.
  - constructor; [reflexivity|]. now apply IH.
Qed.

(** The two outcomes of a merge. *)
Lemma merge_replace l x i :
  first_match l x i -> merge l x = <[i := x]> l.
Proof. intros Hi. unfold merge. apply (scan_first l 0) in Hi. now rewrite Hi. Qed.

Lemma merge_insert l x :
  Forall (fun r => key r <> key x) l -> merge l x = x :: l.
Proof.
  intros Hn. unfold merge.
  destruct (scan l 0 x) as [i|] eqn:Hs; [|reflexivity].
  exfalso. apply scan_0 in Hs as [[old [Hi Hk]] _].
  rewrite Forall_forall in Hn. apply (Hn old); [|exact Hk].
  eapply list_elem_of_lookup_2, Hi.
Qed.

Lemma merge_cases l x :
  (exists i, first_match l x i /\ merge l x = <[i := x]> l) \/
  (Forall (fun r => key r <> key x) l /\ merge l x = x :: l).
Proof.
  destruct (scan l 0 x) as [i|] eqn:Hs.
  - left. exists i. apply scan_0 in Hs. split; [exact Hs | now apply merge_replace].
  - right. apply scan_None in Hs. split; [exact Hs | now apply merge_insert].
Qed.

Lemma versions_insert (l : list Element) i old new :
  l !! i = Some old -> key old = key new ->
  versions (<[i := new]> l) = versions l.
Proof.
  unfold versions.
  revert i; induction l as [|a l IH]; intros [|i] Hi Hk; simpl in *;
    try discriminate.
  - injection Hi as ->. now rewrite Hk.
  - erewrite IH by eassumption. reflexivity.
Qed.

Lemma versions_absent l v :
  Forall (fun r => key r <> Some v) l -> v ∉ versions l.
Proof.
  intros Hn Hin. unfold versions in Hin.
  apply list_elem_of_omap in Hin as [r [Hr Hv]].
  rewrite Forall_forall in Hn. now apply (Hn r).
Qed.

Lemma merge_unique l x : unique_versions l -> unique_versions (merge l x).
Proof.
  unfold unique_versions. intros Hu.
  destruct (merge_cases l x) as [[i [[[old [Hi Hk]] _] ->]]|[Hn ->]].
  - now rewrite (versions_insert l i old x Hi Hk).
  - unfold versions; simpl. fold (versions l).
    destruct (key x) as [v|] eqn:Hv; [|exact Hu].
    apply NoDup_cons. split; [now apply versions_absent | exact Hu].
Qed.

End MergeFacts.

Module MergeClaims.
Import MergeFacts Examples.

(** C4.  When some record has the version of the new one, the first such
    record is replaced where it stands: the collection keeps its length,
    holds the new record at that index and every other record at its own
    index.  When no record has that version, the new record comes first and
    the old collection follows it unchanged. *)
Theorem merge_replaces_or_prepends (root xml_release : Element) :
  (forall idx,
     first_match (children root) xml_release idx ->
     let merged := children (merge_release root xml_release) in
     length merged = length (children root) /\
     merged !! idx = Some xml_release /\
     forall j, j <> idx -> merged !! j = children root !! j) /\
  (Forall (fun r => get r "version" <> get xml_release "version") (children root) ->
   children (merge_release root xml_release) = xml_release :: children root).
Proof.
  split.
  - intros idx Hidx merged. subst merged. simpl.
    rewrite (merge_replace _ _ _ Hidx).
    destruct Hidx as [[old [Hold _]] _].
    apply lookup_lt_Some in Hold.
    split; [apply length_insert|].
    split; [now apply list_lookup_insert_eq|].
    intros j Hj. now apply list_lookup_insert_ne.
  - intros Hn. simpl. now apply merge_insert.
Qed.

Lemma merge_replaces_or_prepends_witness :
  children (merge_release releases_after (old_record "1.1.0")) !! 1
  = Some (old_record "1.1.0") /\
  children (merge_release releases_before record_1_2_0)
  = record_1_2_0 :: children releases_before.
Proof.
  split.
  - refine (proj1 (proj2 (proj1 (merge_replaces_or_prepends releases_after
                                    (old_record "1.1.0")) 1 _))).
    split.
    + exists (old_record "1.1.0"). split; reflexivity.
    + intros [|[|k]] r Hk; [|lia|lia]. intros [= <-]. discriminate.
  - apply (proj2 (merge_replaces_or_prepends releases_before record_1_2_0)).
    repeat constructor; discriminate.
Defined.

(** C5.  A merge keeps the versions of the collection pairwise distinct and
    deletes nothing: the length stays when a record is replaced and grows by
    one when the record is new, and every record with another version is
    still there. *)
Theorem merge_keeps_versions_unique (root xml_release : Element) :
  unique_versions (children root) ->
  let merged := children (merge_release root xml_release) in
  unique_versions merged /\
  (Exists (fun r => get r "version" = get xml_release "version") (children root) ->
   length merged = length (children root)) /\
  (Forall (fun r => get r "version" <> get xml_release "version") (children root) ->
   length merged = S (length (children root))) /\
  (forall r, r ∈ children root ->
     get r "version" <> get xml_release "version" -> r ∈ merged).
Proof.
  intros Hu merged. subst merged. simpl.
  split; [now apply merge_unique|].
  destruct (merge_cases (children root) xml_release)
    as [[i [Hi ->]]|[Hn ->]].
  - split; [intros _; apply length_insert|]. split.
    + intros Hn. exfalso. destruct Hi as [[old [Hold Hk]] _].
      rewrite Forall_forall in Hn. apply (Hn old); [|exact Hk].
      eapply list_elem_of_lookup_2, Hold.
    + intros r Hr Hk. apply list_elem_of_lookup in Hr as [j Hj].
      apply list_elem_of_lookup. exists j.
      rewrite list_lookup_insert_ne; [exact Hj|].
      intros <-. destruct Hi as [[old [Hold Hko]] _]. congruence.
  - split.
    + intros He. exfalso. apply Exists_exists in He as [r [Hr Hk]].
      rewrite Forall_forall in Hn. now apply (Hn r).
    + split; [reflexivity|]. intros r Hr _. now apply list_elem_of_further.
Qed.

Lemma merge_keeps_versions_unique_witness :
  unique_versions (children (merge_release releases_before record_1_2_0)).
Proof.
  apply (merge_keeps_versions_unique releases_before record_1_2_0).
  unfold unique_versions. vm_compute.
  repeat constructor; rewrite ?list_elem_of_In; simpl; intuition discriminate.
Defined.

End MergeClaims.

(** ** A run of the synchroniser *)

Section SyncFacts.
Context `{Library}.

Lemma sync_each_Ok json_releases root root' :
  sync_each json_releases root = Ok root' ->
  exists xml_releases,
    Forall2 built json_releases xml_releases /\
    root' = fold_left merge_release xml_releases root.
Proof.
  revert root; induction json_releases as [|j js IH]; intros root; simpl.
  - intros [= <-]. exists []. split; [constructor | reflexivity].
  - destruct j as [t|]; simpl; [|discriminate].
    destruct (generate_metainfo_release t) as [r|] eqn:Er; simpl; [|discriminate].
    intros Hs. apply IH in Hs as [rs [Hrs ->]].
    exists (r :: rs). split; [|reflexivity].
    constructor; [|exact Hrs]. now exists t.
Qed.

Lemma sync_each_built json_releases xml_releases root :
  Forall2 built json_releases xml_releases ->
  sync_each json_releases root = Ok (fold_left merge_release xml_releases root).
Proof.
  intros Hb. revert root.
  induction Hb as [|j r js rs [t [-> Hr]] _ IH]; intros root; simpl;
    [reflexivity|].
  rewrite Hr; simpl. apply IH.
Qed.

Lemma sync_each_Raise json_releases root tag_name e :
  Some tag_name ∈ json_releases ->
  generate_metainfo_release tag_name = Raise e ->
  exists e', sync_each json_releases root = Raise e'.
Proof.
  intros Hin Hr. revert root.
  induction json_releases as [|j js IH]; intros root.
  - now apply not_elem_of_nil in Hin.
  - simpl. destruct j as [t|]; simpl; [|now exists KeyError].
    destruct (generate_metainfo_release t) as [r|e0] eqn:Et; simpl;
      [|now exists e0].
    apply IH. apply elem_of_cons in Hin as [[= ->]|Hin]; [congruence | exact Hin].
Qed.

Lemma sync_tree_Ok f root :
  sync_tree f = Ok root ->
  exists data root0 json_releases xml_releases,
    content f = Some data /\
    xml_parse data = Ok root0 /\
    gh_release_list = Ok json_releases /\
    Forall2 built (rev json_releases) xml_releases /\
    root = fold_left merge_release xml_releases root0.
Proof.
  unfold sync_tree.
  destruct (content f) as [data|]; simpl; [|discriminate].
  destruct (xml_parse data) as [root0|] eqn:Ep; simpl; [|discriminate].
  destruct gh_release_list as [js|] eqn:El; simpl; [|discriminate].
  intros Hs. apply sync_each_Ok in Hs as [rs [Hrs ->]].
  now exists data, root0, js, rs.
Qed.



(** The causes for which a record is not built. *)
Lemma release_not_fetched tag_name e :
  gh_release_view tag_name = Raise e ->
  generate_metainfo_release tag_name = Raise e.
Proof. unfold generate_metainfo_release. now intros ->. Qed.

Lemma release_body_rejected tag_name json_release date e :
  gh_release_view tag_name = Ok json_release ->
  isoformat_day (publishedAt json_release) = Ok date ->
  generate_metainfo_description (body json_release) = Raise e ->
  generate_metainfo_release tag_name = Raise e.
Proof.
  unfold generate_metainfo_release. intros -> Hd Hb; simpl.
  rewrite Hd; simpl. now rewrite Hb.
Qed.

Lemma fold_merge_release xml_releases root :
  fold_left merge_release xml_releases root
  = set_children root (fold_left merge xml_releases (children root)).
Proof.
  revert root; induction xml_releases as [|r rs IH]; intros root; simpl.
  - now destruct root.
  - rewrite IH. reflexivity.
Qed.

End SyncFacts.

Module SyncClaims.
Import Examples.



End SyncClaims.

(** ** Running the synchroniser again *)

Module RerunFacts.
Import MergeFacts.

(** After a merge the record is the first one with its version. *)
Lemma merge_settles l r : settled (merge l r) r.
Proof.
  destruct (merge_cases l r) as [[i [Hi ->]]|[Hn ->]].
  - exists i. pose proof Hi as [[old [Hold Hk]] _]. split.
    + apply scan_0. rewrite (scan_keys _ l); [now apply scan_0|].
      eapply keys_insert; eauto.
    + apply list_lookup_insert_eq. eapply lookup_lt_Some, Hold.
  - exists 0. split; [|reflexivity]. split.
    + now exists r.
    + intros k r' Hk. lia.
Qed.

(** Merging a record with another version leaves it so. *)
Lemma merge_settled_other l r r' :
  key r' <> key r -> settled l r -> settled (merge l r') r.
Proof.
  intros Hne [i [Hi Hr]].
  destruct (merge_cases l r') as [[i' [Hi' ->]]|[Hn ->]].
  - exists i. pose proof Hi' as [[old [Hold Hk]] _]. split.
    + apply scan_0. rewrite (scan_keys _ l); [now apply scan_0|].
      eapply keys_insert; eauto.
    + rewrite list_lookup_insert_ne; [exact Hr|].
      intros ->. rewrite Hold in Hr. injection Hr as ->. congruence.
  - exists (S i). split; [|exact Hr].
    apply scan_0. simpl. rewrite bool_decide_eq_false_2 by exact Hne.
    apply (scan_first l 1) in Hi. exact Hi.
Qed.

Lemma fold_merge_settled_other post l r :
  Forall (fun r' => key r' <> key r) post ->
  settled l r -> settled (fold_left merge post l) r.
Proof.
  intros Hp. revert l; induction Hp as [|r' post Hne _ IH]; intros l Hs; simpl.
  - exact Hs.
  - apply IH. now apply merge_settled_other.
Qed.

(** After a pass over [rs], the last record of [rs] with a given version is
    the first record of the collection with that version. *)
Lemma fold_merge_settled pre r post l :
  Forall (fun r' => key r' <> key r) post ->
  settled (fold_left merge (pre ++ r :: post) l) r.
Proof.
  intros Hp. rewrite fold_left_app. simpl.
  apply fold_merge_settled_other; [exact Hp | apply merge_settles].
Qed.

(** The last record of [rs] with a version that occurs in [rs]. *)
Lemma last_with_version (rs : list Element) r :
  Exists (fun x => key x = key r) rs ->
  exists pre r' post,
    rs = pre ++ r' :: post /\ key r' = key r /\
    Forall (fun x => key x <> key r) post.
Proof.
  induction rs as [|a rs IH]; intros He.
  - inversion He.
  - destruct (decide (Exists (fun x => key x = key r) rs)) as [He'|Hn].
    + destruct (IH He') as [pre [r' [post [-> [Hk Hp]]]]].
      now exists (a :: pre), r', post.
    + exists [], a, rs. split; [reflexivity|]. split.
      * inversion He; [assumption | contradiction].
      * now apply List.Forall_Exists_neg.
Qed.

Lemma first_match_key l x y j :
  key x = key y -> first_match l x j -> first_match l y j.
Proof. unfold first_match. intros ->. tauto. Qed.

Section SecondPass.
Variables W R rs : list Element.
Hypothesis written :
  forall pre r post,
    rs = pre ++ r :: post -> Forall (fun x => key x <> key r) post -> settled W r.
Hypothesis same_versions : Forall2 (fun w x => key w = key x) W R.





End SecondPass.


End RerunFacts.

Section RerunSerialized.
Context `{Library}.




Lemma set_children_id root : set_children root (children root) = root.
Proof. now destruct root. Qed.

End RerunSerialized.

Module RerunClaims.
Import MergeFacts RerunFacts Examples.



End RerunClaims.

(** * Further properties of the code *)

(** ** The text of a tree *)

Module TextFacts.
Import Sanitize SanitizeFacts.







End TextFacts.

(** ** What the sanitizer keeps *)

Module SanitizeMore.
Import Sanitize SanitizeFacts.

Lemma splice_shape element parent pos idx q :
  splice element parent pos idx = Ok q ->
  tag q = tag parent /\ attrib q = attrib parent /\ tail q = tail parent.
Proof.
  unfold splice. destruct (Nat.eqb idx 0).
  - destruct (to_text element) as [t|]; simpl; [|discriminate].
    destruct (iadd (text parent) (Some t)) as [r|]; simpl; [|discriminate].
    now intros [= <-].
  - destruct (children parent !! (idx - 1)) as [s|]; simpl; [|discriminate].
    destruct (to_text element) as [t|]; simpl; [|discriminate].
    destruct (iadd (tail s) (Some t)) as [r|]; simpl; [|discriminate].
    now intros [= <-].
Qed.

Lemma sanitize_parent_shape fuel element parent idx r p :
  sanitize fuel element (Some parent) idx = Some (Ok (r, p)) ->
  exists q, p = Some q /\
    tag q = tag parent /\ attrib q = attrib parent /\ tail q = tail parent.
Proof.
  destruct fuel as [|fuel]; simpl; [discriminate|]. unfold fuel_bind.
  destruct (each_child fuel element 0 idx) as [[[e' idx']|]|]; try discriminate.
  destruct (allowed (tag (remap e'))).
  - intros [= <- <-]. now eexists.
  - destruct (splice _ _ _ _) as [q|] eqn:Eq; [|discriminate].
    intros [= <- <-]. exists q. split; [reflexivity|].
    now apply splice_shape in Eq.
Qed.

(** The loop changes of its element only the text and the children. *)
Lemma each_child_shape fuel element i idx r idx' :
  each_child fuel element i idx = Some (Ok (r, idx')) ->
  tag r = tag element /\ attrib r = attrib element /\ tail r = tail element.
Proof.
  revert element i idx; induction fuel as [|fuel IH]; intros element i idx;
    simpl; [discriminate|].
  destruct (children element !! i) as [child|]; [|now intros [= <- <-]].
  unfold fuel_bind.
  destruct (sanitize fuel child (Some element) i) as [[[c p]|]|] eqn:Es;
    try discriminate.
  destruct (sanitize_parent_shape _ _ _ _ _ _ Es) as [q [-> [Ht [Ha Hl]]]].
  simpl. intros He. apply IH in He as [Ht' [Ha' Hl']]. repeat split; congruence.
Qed.

Lemma remap_fields e :
  attrib (remap e) = attrib e /\ text (remap e) = text e /\
  tail (remap e) = tail e /\ children (remap e) = children e.
Proof. unfold remap. now destruct (dict_get (tag e) tag_mapping). Qed.

Lemma size_remap e : size (remap e) = size e.
Proof.
  rewrite !size_children. now destruct (remap_fields e) as [_ [_ [_ ->]]].
Qed.

Lemma sizes_delete_le (l : list Element) i : sizes (delete i l) <= sizes l.
Proof.
  revert i; induction l as [|c l IH]; intros [|i]; simpl; try lia.
  - rewrite sizes_cons. lia.
  - rewrite !sizes_cons. specialize (IH i). lia.
Qed.

Lemma sizes_insert_le (l : list Element) i c c' :
  l !! i = Some c -> size c' <= size c -> sizes (<[i := c']> l) <= sizes l.
Proof.
  revert i; induction l as [|x l IH]; intros [|i] Hi Hc; try discriminate.
  - injection Hi as ->. change (sizes (c' :: l) <= sizes (c :: l)).
    rewrite !sizes_cons. lia.
  - change (sizes (x :: <[i := c']> l) <= sizes (x :: l)).
    rewrite !sizes_cons. specialize (IH i Hi Hc). lia.
Qed.

Lemma splice_sizes element parent pos idx q :
  splice element parent pos idx = Ok q ->
  sizes (children q) <= sizes (children parent).
Proof.
  unfold splice. destruct (Nat.eqb idx 0).
  - destruct (to_text element) as [t|]; simpl; [|discriminate].
    destruct (iadd (text parent) (Some t)) as [r|]; simpl; [|discriminate].
    intros [= <-]; simpl. apply sizes_delete_le.
  - destruct (children parent !! (idx - 1)) as [s|] eqn:Es; simpl; [|discriminate].
    destruct (to_text element) as [t|]; simpl; [|discriminate].
    destruct (iadd (tail s) (Some t)) as [r|]; simpl; [|discriminate].
    intros [= <-]; simpl.
    etransitivity; [apply sizes_delete_le|].
    unfold sizes. now rewrite (sizes_insert_tail _ _ _ _ Es).
Qed.

Lemma sanitize_sizes fuel :
  (forall element parent idx r p,
     sanitize fuel element parent idx = Some (Ok (r, p)) ->
     size r <= size element /\
     forall par, parent = Some par -> children par !! idx = Some element ->
       exists q, p = Some q /\ sizes (children q) <= sizes (children par)) /\
  (forall element i idx r idx',
     each_child fuel element i idx = Some (Ok (r, idx')) ->
     sizes (children r) <= sizes (children element)).
Proof.
  induction fuel as [|fuel [IHs IHe]]; split; try (intros; discriminate).
  - intros element parent idx r p. simpl. unfold fuel_bind.
    destruct (each_child fuel element 0 idx) as [[[e' idx']|]|] eqn:Ee;
      try discriminate.
    apply IHe in Ee.
    assert (Hsize : size (remap e') <= size element).
    { rewrite size_remap, !size_children. lia. }
    destruct parent as [parent|].
    + destruct (allowed (tag (remap e'))).
      * intros [= <- <-]. split; [exact Hsize|].
        intros par [= <-] Hpar. eexists; split; [reflexivity|]. simpl.
        eapply sizes_insert_le; eauto.
      * destruct (splice _ _ _ _) as [q|] eqn:Eq; [|discriminate].
        intros [= <- <-]. split; [exact Hsize|].
        intros par [= <-] Hpar. exists q; split; [reflexivity|].
        apply splice_sizes in Eq. simpl in Eq.
        etransitivity; [exact Eq|]. eapply sizes_insert_le; eauto.
    + intros [= <- <-]. split; [exact Hsize|]. intros par Hp. discriminate.
  - intros element i idx r idx'. simpl.
    destruct (children element !! i) as [child|] eqn:Ec; [|now intros [= <- <-]].
    unfold fuel_bind.
    destruct (sanitize fuel child (Some element) i) as [[[c p]|]|] eqn:Es;
      try discriminate.
    apply IHs in Es as [_ Hq].
    destruct (Hq element eq_refl Ec) as [q [-> Hle]]. simpl.
    intros He. apply IHe in He. lia.
Qed.

(** The tree with every tag remapped. *)
Lemma remap_all_eq e :
  remap_all e =
  mkElement (tag (remap e)) (attrib e) (text e) (tail e)
    (map remap_all (children e)).
Proof. now destruct e. Qed.

Lemma remap_set_children e cs :
  remap (set_children e cs) =
  mkElement (tag (remap e)) (attrib e) (text e) (tail e) cs.
Proof.
  unfold remap. change (tag (set_children e cs)) with (tag e).
  now destruct (dict_get (tag e) tag_mapping).
Qed.

Lemma sanitize_allowed fuel :
  (forall element parent idx,
     2 * size element <= fuel ->
     Forall all_allowed (children element) ->
     parent = None \/ allowed (tag (remap element)) = true ->
     sanitize fuel element parent idx =
     Some (Ok (remap_all element,
               (fun par => set_children par
                             (<[idx := remap_all element]> (children par)))
               <$> parent))) /\
  (forall element i idx,
     2 * sizes (drop i (children element)) + 1 <= fuel ->
     Forall all_allowed (drop i (children element)) ->
     each_child fuel element i idx =
     Some (Ok (set_children element
                 (take i (children element)
                  ++ map remap_all (drop i (children element))),
               idx_after element i idx))).
Proof.
  induction fuel as [|fuel [IHs IHe]]; split.
  - intros element ? ? Hf. pose proof (size_pos element). lia.
  - intros; lia.
  - intros element parent idx Hf Hcs Hok. simpl. unfold fuel_bind.
    rewrite size_children in Hf.
    rewrite (IHe element 0 idx); [|rewrite drop_0; lia|now rewrite drop_0].
    rewrite drop_0. simpl. rewrite remap_set_children, <- remap_all_eq.
    destruct parent as [parent|]; [|reflexivity].
    destruct Hok as [Hok|Hok]; [discriminate|].
    rewrite (remap_all_eq element) at 1. simpl. now rewrite Hok.
  - intros element i idx Hf Hcs. simpl.
    destruct (children element !! i) as [child|] eqn:Ec.
    + rewrite (drop_S _ _ _ Ec) in Hcs. apply Forall_cons in Hcs as [Hc Hcs].
      rewrite (sizes_drop_lookup _ _ _ Ec) in Hf.
      inversion Hc as [? Hac Hgc]; subst.
      rewrite (IHs child (Some element) i); [|lia|exact Hgc|now right].
      simpl.
      rewrite (IHe (set_children element
                      (<[i := remap_all child]> (children element))) (S i) i).
      * simpl. do 3 f_equal.
        -- f_equal. rewrite drop_S_insert_le by lia.
           rewrite (take_S_r _ _ (remap_all child)).
           ++ rewrite take_insert_ge by lia. rewrite (drop_S _ _ _ Ec). simpl.
              now rewrite <- app_assoc.
           ++ apply list_lookup_insert_eq. eapply lookup_lt_Some, Ec.
        -- unfold idx_after. simpl. rewrite length_insert.
           apply lookup_lt_Some in Ec.
           repeat case_decide; lia.
      * simpl. rewrite drop_S_insert_le by lia.
        pose proof (size_pos child). lia.
      * simpl. now rewrite drop_S_insert_le by lia.
    + apply lookup_ge_None in Ec. unfold idx_after.
      rewrite take_ge, drop_ge by exact Ec. simpl.
      rewrite app_nil_r, set_children_id.
      case_decide; [lia | reflexivity].
Qed.

(** A disallowed element above allowed ones reaches line 42 with the index
    of its last child in [idx]. *)
Lemma sanitize_above_allowed fuel element parent pos :
  2 * size element <= fuel ->
  children element <> [] ->
  Forall all_allowed (children element) ->
  allowed (tag (remap element)) = false ->
  sanitize fuel element (Some parent) pos =
  match splice (remap_all element)
          (set_children parent (<[pos := remap_all element]> (children parent)))
          pos (length (children element) - 1) with
  | Ok parent' => Some (Ok (remap_all element, Some parent'))
  | Raise e => Some (Raise e)
  end.
Proof.
  intros Hf Hne Hcs Ha.
  destruct fuel as [|fuel]; [pose proof (size_pos element); lia|].
  simpl. unfold fuel_bind. rewrite size_children in Hf.
  rewrite (proj2 (sanitize_allowed fuel) element 0 pos);
    [|rewrite drop_0; lia|now rewrite drop_0].
  rewrite drop_0. simpl. rewrite remap_set_children, <- remap_all_eq.
  rewrite (remap_all_eq element) at 1. simpl. rewrite Ha.
  unfold idx_after. destruct (children element) as [|c cs]; [contradiction|].
  simpl length. case_decide; [reflexivity | lia].
Qed.

Lemma remap_with e tx cs :
  remap (mkElement (tag e) (attrib e) tx (tail e) cs) =
  mkElement (tag (remap e)) (attrib e) tx (tail e) cs.
Proof.
  unfold remap. cbn [tag].
  now destruct (dict_get (tag e) tag_mapping).
Qed.

Lemma to_text_childless element t tl :
  children element = [] -> text element = Some t -> tail element = Some tl ->
  to_text element = Ok (t +:+ tl).
Proof. intros Hc Ht Hl. rewrite to_text_eq, Hc, Ht, Hl. reflexivity. Qed.

Lemma delete_insert_same (l : list Element) i x : delete i (<[i := x]> l) = delete i l.
Proof.
  revert i; induction l as [|c l IH]; intros [|i]; simpl; try reflexivity.
  now rewrite IH.
Qed.

(** A disallowed element without children, with a text and a tail. *)
Lemma sanitize_childless_first fuel element parent t tl pt :
  children element = [] ->
  allowed (tag (remap element)) = false ->
  text element = Some t ->
  tail element = Some tl ->
  text parent = Some pt ->
  sanitize (S (S fuel)) element (Some parent) 0 =
  Some (Ok (remap element,
            Some (mkElement (tag parent) (attrib parent)
                    (Some (pt +:+ t +:+ tl)) (tail parent)
                    (delete 0 (children parent))))).
Proof.
  intros Hc Ha Ht Hl Hpt.
  destruct (remap_fields element) as [_ [Ht' [Hl' Hc']]].
  rewrite (sanitize_childless _ _ _ _ Hc Ha).
  unfold splice. simpl Nat.eqb. cbv iota.
  rewrite (to_text_childless (remap element) t tl) by congruence.
  simpl text. rewrite Hpt. simpl. now rewrite delete_insert_same.
Qed.


(** A tree whose first element has no children, a tag that is not allowed
    and no text or no tail. *)
Lemma run_first_without_text root a rest :
  children root = a :: rest ->
  children a = [] ->
  allowed (tag (remap a)) = false ->
  text a = None \/ tail a = None ->
  run root = Raise TypeError.
Proof.
  intros Hroot Hca Ha Hnone. unfold run, run_fuel.
  assert (Hfuel : exists n, 2 * size root = S (S (S (S n)))).
  { assert (Hsz : size root = S (size a + sizes rest))
      by (rewrite size_children, Hroot; reflexivity).
    pose proof (size_pos a). exists (2 * size root - 4). lia. }
  destruct Hfuel as [n ->].
  assert (Hstep : each_child (S (S (S n))) root 0 0 = Some (Raise TypeError)).
  { change (each_child (S (S (S n))) root 0 0) with
      (match children root !! 0 with
       | None => Some (Ok (root, 0))
       | Some child =>
           let+ (_, parent) := sanitize (S (S n)) child (Some root) 0 in
           each_child (S (S n)) (default root parent) 1 0
       end).
    rewrite Hroot. simpl lookup. cbv beta iota.
    rewrite (sanitize_childless _ _ _ _ Hca Ha).
    unfold splice. simpl Nat.eqb. cbv iota.
    rewrite (to_text_none (remap a)); [reflexivity|].
    destruct (remap_fields a) as [_ [-> [-> _]]]. exact Hnone. }
  change (sanitize (S (S (S (S n)))) root None 0) with
    (let+ (element, idx) := each_child (S (S (S n))) root 0 0 in
     Some (Ok (remap element, @None Element))).
  now rewrite Hstep.
Qed.

End SanitizeMore.

Module SanitizeExtras.
Import Sanitize SanitizeFacts TextFacts SanitizeMore Examples.

Lemma run_Ok root r :
  run root = Ok r ->
  exists p, sanitize (run_fuel root) root None 0 = Some (Ok (r, p)).
Proof.
  unfold run.
  destruct (sanitize (run_fuel root) root None 0) as [[[r' p]|]|];
    try discriminate.
  intros [= <-]. now exists p.
Qed.

Lemma remap_same_tag e e' : tag e = tag e' -> tag (remap e) = tag (remap e').
Proof.
  unfold remap. intros He. rewrite He.
  destruct (dict_get (tag e') tag_mapping); [reflexivity | exact He].
Qed.





(** X3.  The sanitizer adds no node: the tree it returns has at most as
    many nodes as the tree it was given. *)
Theorem sanitizer_adds_no_node (root r : Element) :
  run root = Ok r -> size r <= size root.
Proof.
  intros Hr. apply run_Ok in Hr as [p Hr].
  now apply (proj1 (sanitize_sizes (run_fuel root))) in Hr as [Hs _].
Qed.

Lemma sanitizer_adds_no_node_witness :
  size two_headings_out <= size two_headings.
Proof.
  apply (sanitizer_adds_no_node two_headings two_headings_out).
  reflexivity.
Defined.

(** X4.  The root is never removed: the tree returned has the root's tag
    (remapped), its attributes and its tail; only its text and its children
    can differ. *)
Theorem root_is_kept (root r : Element) :
  run root = Ok r ->
  tag r = tag (remap root) /\ attrib r = attrib root /\ tail r = tail root.
Proof.
  intros Hr. apply run_Ok in Hr as [p Hr].
  unfold run_fuel in Hr.
  destruct (2 * size root) as [|fuel]; [discriminate|].
  simpl in Hr. unfold fuel_bind in Hr.
  destruct (each_child fuel root 0 0) as [[[e' idx']|]|] eqn:Ee;
    try discriminate.
  injection Hr as <- _.
  apply each_child_shape in Ee as [Ht [Ha Hl]].
  destruct (remap_fields e') as [Ha' [_ [Hl' _]]].
  repeat split; [now apply remap_same_tag | congruence | congruence].
Qed.

Lemma root_is_kept_witness :
  tag linked_paragraph_out = tag (remap linked_paragraph) /\
  attrib linked_paragraph_out = attrib linked_paragraph /\
  tail linked_paragraph_out = tail linked_paragraph.
Proof.
  apply (root_is_kept linked_paragraph linked_paragraph_out).
  reflexivity.
Defined.



(** X6.  After a first child without children is elided, the child next to
    it is not visited: of a root with two children the second one is
    returned as it was given, whatever its tag and whatever is below it. *)
Theorem second_child_not_visited (root a b : Element) (rt t tl : string) :
  children root = [a; b] ->
  text root = Some rt ->
  children a = [] ->
  allowed (tag (remap a)) = false ->
  text a = Some t ->
  tail a = Some tl ->
  run root =
  Ok (mkElement (tag (remap root)) (attrib root) (Some (rt +:+ t +:+ tl))
        (tail root) [b]).
Proof.
  intros Hroot Hrt Hca Ha Ht Hl. unfold run, run_fuel.
  assert (Hfuel : exists n, 2 * size root = S (S (S (S n)))).
  { assert (Hsz : size root = S (size a + (size b + 0)))
      by (rewrite size_children, Hroot; reflexivity).
    pose proof (size_pos a). pose proof (size_pos b).
    exists (2 * size root - 4). lia. }
  destruct Hfuel as [n ->].
  assert (Hstep : each_child (S (S (S n))) root 0 0 =
            Some (Ok (mkElement (tag root) (attrib root)
                        (Some (rt +:+ t +:+ tl)) (tail root) [b], 0))).
  { change (each_child (S (S (S n))) root 0 0) with
      (match children root !! 0 with
       | None => Some (Ok (root, 0))
       | Some child =>
           let+ (_, parent) := sanitize (S (S n)) child (Some root) 0 in
           each_child (S (S n)) (default root parent) 1 0
       end).
    rewrite Hroot. simpl lookup. cbv beta iota.
    rewrite (sanitize_childless_first n a root t tl rt Hca Ha Ht Hl Hrt).
    rewrite Hroot. reflexivity. }
  change (sanitize (S (S (S (S n)))) root None 0) with
    (let+ (element, idx) := each_child (S (S (S n))) root 0 0 in
     Some (Ok (remap element, @None Element))).
  rewrite Hstep. unfold fuel_bind. cbv beta iota. f_equal.
  apply remap_with.
Qed.

Lemma second_child_not_visited_witness :
  run two_headings = Ok two_headings_out.
Proof.
  apply (second_child_not_visited two_headings
           (leaf "h1" (Some "a") (Some nl)) (leaf "h2" (Some "b") (Some nl))
           nl "a" nl); reflexivity.
Defined.

(** X15.  A disallowed element with children, all of them and everything
    below them allowed, is spliced at the index of its last child and not at
    its own position.  With one child its text goes to the parent's text,
    wherever in the parent it stands; with more children than the parent
    has places before that index an [IndexError] is raised. *)
Theorem elided_element_spliced_at_child_index (fuel : nat)
    (element parent : Element) (pos : nat) :
  2 * size element <= fuel ->
  children element <> [] ->
  Forall all_allowed (children element) ->
  allowed (tag (remap element)) = false ->
  sanitize fuel element (Some parent) pos =
    match splice (remap_all element)
            (set_children parent (<[pos := remap_all element]> (children parent)))
            pos (length (children element) - 1) with
    | Ok parent' => Some (Ok (remap_all element, Some parent'))
    | Raise e => Some (Raise e)
    end /\
  (forall s pt,
     length (children element) = 1 ->
     to_text (remap_all element) = Ok s ->
     text parent = Some pt ->
     sanitize fuel element (Some parent) pos =
     Some (Ok (remap_all element,
               Some (mkElement (tag parent) (attrib parent) (Some (pt +:+ s))
                       (tail parent) (delete pos (children parent)))))) /\
  (2 <= length (children element) ->
   length (children parent) < length (children element) - 1 ->
   sanitize fuel element (Some parent) pos = Some (Raise IndexError)).
Proof.
  intros Hf Hne Hcs Ha.
  pose proof (sanitize_above_allowed fuel element parent pos Hf Hne Hcs Ha) as Hs.
  split; [exact Hs|]. split.
  - intros s pt Hlen Ht Hpt. rewrite Hs, Hlen. unfold splice.
    simpl Nat.eqb. cbv iota. rewrite Ht. simpl text. rewrite Hpt. simpl.
    now rewrite delete_insert_same.
  - intros Hk Hp. rewrite Hs. unfold splice.
    destruct (Nat.eqb_spec (length (children element) - 1) 0) as [Hz|_]; [lia|].
    simpl children. rewrite lookup_ge_None_2; [reflexivity|].
    rewrite length_insert. lia.
Qed.

Lemma elided_element_spliced_at_child_index_witness :
  sanitize 4
    (mkElement "a" [("href", "http://u")] (Some "foo ") (Some " y")
       [leaf "em" (Some "bar") (Some " baz")])
    (Some (mkElement "p" [] (Some "x ") (Some nl)
             [leaf "em" (Some "E") (Some " ");
              mkElement "a" [("href", "http://u")] (Some "foo ") (Some " y")
                [leaf "em" (Some "bar") (Some " baz")]])) 1
  = Some (Ok (mkElement "a" [("href", "http://u")] (Some "foo ") (Some " y")
                [leaf "em" (Some "bar") (Some " baz")],
              Some (mkElement "p" [] (Some "x foo bar baz y") (Some nl)
                      [leaf "em" (Some "E") (Some " ")]))).
Proof.
  apply (proj1 (proj2 (elided_element_spliced_at_child_index 4
           (mkElement "a" [("href", "http://u")] (Some "foo ") (Some " y")
              [leaf "em" (Some "bar") (Some " baz")])
           (mkElement "p" [] (Some "x ") (Some nl)
              [leaf "em" (Some "E") (Some " ");
               mkElement "a" [("href", "http://u")] (Some "foo ") (Some " y")
                 [leaf "em" (Some "bar") (Some " baz")]])
           1 ltac:(simpl; lia) ltac:(discriminate)
           ltac:(repeat constructor) eq_refl))
           "foo bar baz y" "x "); reflexivity.
Defined.

End SanitizeExtras.

(** ** Versions of tags *)

Module VersionExtras.
Import Examples.

Lemma release_version_v c s :
  Ascii.eqb c "v" = true -> release_version (String c s) = release_version s.
Proof. intros Hc. unfold release_version. simpl. now rewrite Hc. Qed.

Lemma release_version_other c s :
  Ascii.eqb c "v" = false -> release_version (String c s) = String c s.
Proof. intros Hc. unfold release_version. simpl. now rewrite Hc. Qed.

Lemma release_version_fixed s :
  (forall rest, s <> String "v" rest) -> release_version s = s.
Proof.
  destruct s as [|c s]; [reflexivity|]. intros Hs.
  apply release_version_other.
  destruct (Ascii.eqb_spec c "v") as [->|]; [|reflexivity].
  now contradiction (Hs s).
Qed.

(** X7.  Leading ["v"] characters do not tell tags apart: a tag and the
    same tag with more of them in front have one version; the version of a
    version is itself; and for a tag that does not begin with two ["v"] the
    version is the tag without its one leading ["v"], if it has one. *)
Theorem version_ignores_leading_v (tag_name : string) :
  (forall n, release_version (v_run n +:+ tag_name) = release_version tag_name) /\
  release_version (release_version tag_name) = release_version tag_name /\
  ((forall rest, tag_name <> String "v" (String "v" rest)) ->
   release_version tag_name = strip_single_v tag_name).
Proof.
  split; [|split].
  - induction n as [|n IH]; [reflexivity|].
    simpl v_run. rewrite app_String. now rewrite release_version_v.
  - apply release_version_fixed. intros rest. apply lstrip_v_head.
  - intros Hvv. destruct tag_name as [|c s]; [reflexivity|]. simpl.
    destruct (Ascii.eqb c "v") eqn:Hc.
    + rewrite release_version_v by exact Hc. apply release_version_fixed.
      intros rest ->. apply Ascii.eqb_eq in Hc as ->. now apply (Hvv rest).
    + now apply release_version_other.
Qed.

Lemma version_ignores_leading_v_witness :
  release_version "v1.2.0" = strip_single_v "v1.2.0".
Proof.
  apply (proj2 (proj2 (version_ignores_leading_v "v1.2.0"))).
  intros rest. discriminate.
Defined.

End VersionExtras.

(** ** Passes over the collection *)

Module MergeMore.
Import MergeFacts RerunFacts.

Lemma fold_merge_fresh rs l :
  NoDup (map (fun r => key r) rs) ->
  (forall r x, r ∈ rs -> x ∈ l -> key x <> key r) ->
  fold_left merge rs l = rev rs ++ l.
Proof.
  revert l; induction rs as [|r rs IH]; intros l Hd Hf; simpl; [reflexivity|].
  simpl in Hd. apply NoDup_cons in Hd as [Hr Hd].
  rewrite (merge_insert l r).
  - rewrite IH; [now rewrite <- app_assoc | exact Hd |].
    intros r' x Hr' Hx. apply elem_of_cons in Hx as [->|Hx].
    + intros Hk. apply Hr. rewrite Hk.
      apply list_elem_of_In, (in_map (fun r => key r)), list_elem_of_In, Hr'.
    + apply Hf; [now apply list_elem_of_further | exact Hx].
  - apply Forall_forall. intros x Hx. apply Hf; [apply list_elem_of_here | exact Hx].
Qed.

Lemma Forall2_rev {A B} (P : A -> B -> Prop) l k :
  Forall2 P l k -> Forall2 P (rev l) (rev k).
Proof.
  induction 1 as [|a b l k Hab _ IH]; simpl; [constructor|].
  apply Forall2_app; [exact IH | now constructor].
Qed.

Lemma filter_insert_out (P : Element -> Prop) `{!forall x, Decision (P x)}
    (l : list Element) i old new :
  l !! i = Some old -> ~ P old -> ~ P new ->
  filter P (<[i := new]> l) = filter P l.
Proof.
  revert i; induction l as [|c l IH]; intros [|i] Hi Ho Hn; try discriminate.
  - injection Hi as ->. simpl.
    now rewrite !filter_cons_False by assumption.
  - simpl. rewrite !filter_cons. now rewrite (IH i Hi Ho Hn).
Qed.

Lemma filter_fold_merge (P : Element -> Prop) `{!forall x, Decision (P x)} rs l :
  (forall x y, key x = key y -> P x -> P y) ->
  Forall (fun r => ~ P r) rs ->
  filter P (fold_left merge rs l) = filter P l.
Proof.
  intros Hkey Hrs. revert l; induction Hrs as [|r rs Hr _ IH]; intros l; simpl;
    [reflexivity|].
  rewrite IH.
  destruct (merge_cases l r) as [[i [[[old [Hold Hk]] _] ->]]|[_ ->]].
  - apply (filter_insert_out P l i old r Hold); [|exact Hr].
    intros Ho. apply Hr. now apply (Hkey old).
  - now apply filter_cons_False.
Qed.

Lemma fold_merge_unique rs l :
  unique_versions l -> unique_versions (fold_left merge rs l).
Proof.
  revert l; induction rs as [|r rs IH]; intros l Hu; simpl; [exact Hu|].
  apply IH. now apply merge_unique.
Qed.

Lemma merge_length l r :
  length l <= length (merge l r) <= S (length l).
Proof.
  destruct (merge_cases l r) as [[i [_ ->]]|[_ ->]].
  - rewrite length_insert. lia.
  - simpl. lia.
Qed.

Lemma fold_merge_length rs l :
  length l <= length (fold_left merge rs l) <= length l + length rs.
Proof.
  revert l; induction rs as [|r rs IH]; intros l; simpl; [lia|].
  specialize (IH (merge l r)). pose proof (merge_length l r). lia.
Qed.

End MergeMore.

(** ** What a run does to the collection *)

Section RunFacts.
Context `{Library}.

Lemma sync_tree_children f root :
  sync_tree f = Ok root ->
  exists data root0 json_releases xml_releases,
    content f = Some data /\
    xml_parse data = Ok root0 /\
    gh_release_list = Ok json_releases /\
    Forall2 built (rev json_releases) xml_releases /\
    children root = fold_left merge xml_releases (children root0).
Proof.
  intros Hs. apply sync_tree_Ok in Hs
    as [data [root0 [js [rs [Hd [Hp [Hl [Hb ->]]]]]]]].
  exists data, root0, js, rs. repeat split; try assumption.
  now rewrite fold_merge_release.
Qed.

Lemma sync_raises f json_releases tag_name e :
  gh_release_list = Ok json_releases ->
  Some tag_name ∈ json_releases ->
  generate_metainfo_release tag_name = Raise e ->
  exists e', sync_metainfo_releases f = (Raise e', f).
Proof.
  intros Hl Hin Hr. unfold sync_metainfo_releases, sync_tree.
  destruct (content f) as [data|]; simpl; [|now exists OSError].
  destruct (xml_parse data) as [root0|e0]; simpl; [|now exists e0].
  rewrite Hl; simpl.
  destruct (sync_each_Raise (rev json_releases) root0 tag_name e) as [e' ->];
    [ apply list_elem_of_In, (proj1 (in_rev json_releases (Some tag_name))),
        list_elem_of_In, Hin
    | exact Hr | now exists e' ].
Qed.

Lemma built_version json_release xml_release :
  built json_release xml_release ->
  exists tag_name,
    json_release = Some tag_name /\
    generate_metainfo_release tag_name = Ok xml_release /\
    get xml_release "version" = Some (release_version tag_name).
Proof.
  intros [t [-> Hb]]. exists t. repeat split; [exact Hb|].
  now apply release_has_version.
Qed.

Lemma built_listed json_releases xml_releases r :
  Forall2 built (rev json_releases) xml_releases ->
  r ∈ xml_releases ->
  exists tag_name,
    Some tag_name ∈ json_releases /\
    generate_metainfo_release tag_name = Ok r /\
    get r "version" = Some (release_version tag_name).
Proof.
  intros Hb Hr. apply list_elem_of_lookup in Hr as [i Hi].
  destruct (Forall2_lookup_r _ _ _ _ _ Hb Hi) as [j [Hj Hjr]].
  apply built_version in Hjr as [t [-> [Ht Hv]]].
  exists t. repeat split; try assumption.
  apply list_elem_of_In, (proj2 (in_rev json_releases (Some t))), list_elem_of_In.
  eapply list_elem_of_lookup_2, Hj.
Qed.

Lemma listed_built json_releases xml_releases tag_name :
  Forall2 built (rev json_releases) xml_releases ->
  Some tag_name ∈ json_releases ->
  exists r, r ∈ xml_releases /\
    get r "version" = Some (release_version tag_name).
Proof.
  intros Hb Hin.
  apply list_elem_of_In, (proj1 (in_rev json_releases (Some tag_name))),
    list_elem_of_In, list_elem_of_lookup in Hin as [i Hi].
  destruct (Forall2_lookup_l _ _ _ _ _ Hb Hi) as [r [Hr Hbr]].
  apply built_version in Hbr as [t [[= <-] [_ Hv]]].
  exists r. split; [eapply list_elem_of_lookup_2, Hr | exact Hv].
Qed.

End RunFacts.

Module RunExtras.
Import MergeFacts RerunFacts MergeMore Examples.

(** X8.  Of two records with one version that are merged one after the
    other, only the later one is left: the result is that of merging the
    later one alone.  In particular merging a record twice is merging it
    once. *)
Theorem later_record_replaces (releases : list Element) (a b : Element) :
  get a "version" = get b "version" ->
  merge (merge releases a) b = merge releases b.
Proof.
  intros Hk.
  destruct (merge_cases releases a) as [[i [Hi ->]]|[Hn ->]].
  - pose proof Hi as [[old [Hold Hko]] _].
    rewrite (merge_replace releases b i) by (now apply (first_match_key _ a)).
    rewrite (merge_replace _ b i).
    + apply list_insert_insert_eq.
    + apply scan_0. rewrite (scan_keys _ releases 0 b).
      * apply scan_0. now apply (first_match_key _ a).
      * eapply keys_insert; eauto.
  - rewrite (merge_insert releases b).
    + rewrite (merge_replace (a :: releases) b 0); [reflexivity|]. split.
      * now exists a.
      * intros k r Hlt. lia.
    + eapply Forall_impl; [exact Hn|]. simpl. intros; congruence.
Qed.

Lemma later_record_replaces_witness :
  merge (merge (children releases_before) (old_record "1.2.0")) record_1_2_0
  = merge (children releases_before) record_1_2_0.
Proof.
  apply (later_record_replaces (children releases_before)
           (old_record "1.2.0") record_1_2_0).
  reflexivity.
Defined.

(** X9.  When the listed releases have pairwise different versions and
    none of them is in the document yet, the run puts their records in
    front of the old ones, in the order of the listing. *)
Theorem new_releases_lead_in_listing_order `{Library} (f : File) (data : string)
    (root0 : Element) (json_releases : list (option string))
    (xml_releases : list Element) :
  content f = Some data ->
  xml_parse data = Ok root0 ->
  gh_release_list = Ok json_releases ->
  Forall2 built json_releases xml_releases ->
  NoDup (map (fun r => get r "version") xml_releases) ->
  (forall r x, r ∈ xml_releases -> x ∈ children root0 ->
     get x "version" <> get r "version") ->
  exists root,
    sync_tree f = Ok root /\
    children root = xml_releases ++ children root0.
Proof.
  intros Hd Hp Hl Hb Hn Hf.
  exists (fold_left merge_release (rev xml_releases) root0). split.
  - unfold sync_tree. rewrite Hd; simpl. rewrite Hp; simpl. rewrite Hl; simpl.
    apply sync_each_built. now apply Forall2_rev.
  - rewrite fold_merge_release. simpl. rewrite fold_merge_fresh.
    + now rewrite rev_involutive.
    + rewrite map_rev. now apply NoDup_ListNoDup, NoDup_rev, NoDup_ListNoDup.
    + intros r x Hr. apply Hf.
      apply list_elem_of_In, (proj2 (in_rev xml_releases r)), list_elem_of_In, Hr.
Qed.

Lemma new_releases_lead_in_listing_order_witness :
  exists root,
    sync_tree (H := demo) file_before = Ok root /\
    children root = [record_1_2_0] ++ children releases_before.
Proof.
  apply (new_releases_lead_in_listing_order (H := demo) file_before
           (to_xml releases_before +:+ newline) releases_before
           [Some "v1.2.0"] [record_1_2_0]).
  - reflexivity.
  - vm_compute. reflexivity.
  - reflexivity.
  - repeat constructor. exists "v1.2.0". split; [reflexivity|].
    vm_compute. reflexivity.
  - apply NoDup_singleton.
  - intros r x Hr Hx. apply list_elem_of_In in Hr, Hx. simpl in Hr, Hx.
    destruct Hr as [<-|[]]. destruct Hx as [<-|[<-|[]]]; discriminate.
Defined.

(** X10.  A run that succeeds leaves the records whose version is the
    version of no listed tag as they were, in the order they were in. *)
Theorem unlisted_records_untouched `{Library} (f : File) (data : string)
    (root0 root : Element) (json_releases : list (option string)) :
  content f = Some data ->
  xml_parse data = Ok root0 ->
  gh_release_list = Ok json_releases ->
  sync_tree f = Ok root ->
  filter (fun x => get x "version" ∉ listed_versions json_releases)
    (children root)
  = filter (fun x => get x "version" ∉ listed_versions json_releases)
      (children root0).
Proof.
  intros Hd Hp Hl Hs.
  apply sync_tree_children in Hs
    as [data' [root0' [js [rs [Hd' [Hp' [Hl' [Hb ->]]]]]]]].
  assert (data' = data) as -> by congruence.
  assert (root0' = root0) as -> by congruence.
  assert (js = json_releases) as -> by congruence.
  apply filter_fold_merge.
  - intros x y Hxy. now rewrite Hxy.
  - apply Forall_forall. intros r Hr Hout. apply Hout.
    destruct (built_listed _ _ _ Hb Hr) as [t [Ht [_ ->]]].
    apply list_elem_of_In, in_map_iff. exists (Some t).
    split; [reflexivity | now apply list_elem_of_In].
Qed.

Lemma unlisted_records_untouched_witness :
  filter (fun x => get x "version" ∉ listed_versions [Some "v1.2.0"])
    (children releases_after)
  = filter (fun x => get x "version" ∉ listed_versions [Some "v1.2.0"])
      (children releases_before).
Proof.
  apply (unlisted_records_untouched (H := demo) file_before
           (to_xml releases_before +:+ newline) releases_before releases_after
           [Some "v1.2.0"]).
  - reflexivity.
  - vm_compute. reflexivity.
  - reflexivity.
  - vm_compute. reflexivity.
Defined.

(** X11.  A run that succeeds keeps the versions of the collection pairwise
    distinct, however many releases it merges. *)
Theorem run_keeps_versions_unique `{Library} (f : File) (data : string)
    (root0 root : Element) :
  content f = Some data ->
  xml_parse data = Ok root0 ->
  sync_tree f = Ok root ->
  unique_versions (children root0) ->
  unique_versions (children root).
Proof.
  intros Hd Hp Hs Hu.
  apply sync_tree_children in Hs
    as [data' [root0' [js [rs [Hd' [Hp' [_ [_ ->]]]]]]]].
  assert (data' = data) as -> by congruence.
  assert (root0' = root0) as -> by congruence.
  now apply fold_merge_unique.
Qed.

Lemma run_keeps_versions_unique_witness :
  unique_versions (children releases_after).
Proof.
  apply (run_keeps_versions_unique (H := demo) file_before
           (to_xml releases_before +:+ newline) releases_before releases_after).
  - reflexivity.
  - vm_compute. reflexivity.
  - vm_compute. reflexivity.
  - unfold unique_versions. vm_compute.
    repeat constructor; rewrite ?list_elem_of_In; simpl; intuition discriminate.
Defined.

(** X12.  After a run that succeeds, for every listed tag the first record
    of the collection with the version of that tag is a record built in
    this run, from a listed tag with that version. *)
Theorem listed_release_is_present `{Library} (f : File) (root : Element)
    (json_releases : list (option string)) (tag_name : string) :
  sync_tree f = Ok root ->
  gh_release_list = Ok json_releases ->
  Some tag_name ∈ json_releases ->
  exists xml_release built_from,
    Some built_from ∈ json_releases /\
    generate_metainfo_release built_from = Ok xml_release /\
    release_version built_from = release_version tag_name /\
    settled (children root) xml_release.
Proof.
  intros Hs Hl Hin.
  apply sync_tree_children in Hs
    as [data [root0 [js [rs [_ [_ [Hl' [Hb ->]]]]]]]].
  assert (js = json_releases) as -> by congruence.
  destruct (listed_built _ _ _ Hb Hin) as [r0 [Hr0 Hv0]].
  destruct (last_with_version rs r0) as [pre [r [post [Hrs [Hk Hpost]]]]].
  { apply Exists_exists. now exists r0. }
  assert (Hr : r ∈ rs).
  { rewrite Hrs. apply elem_of_app. right. apply list_elem_of_here. }
  destruct (built_listed _ _ _ Hb Hr) as [t [Ht [Hbt Hvt]]].
  exists r, t. repeat split; try assumption.
  - congruence.
  - rewrite Hrs. apply fold_merge_settled.
    eapply Forall_impl; [exact Hpost|]. simpl. intros; congruence.
Qed.

Lemma listed_release_is_present_witness :
  exists xml_release built_from,
    Some built_from ∈ [Some "v1.2.0"] /\
    generate_metainfo_release (H := demo) built_from = Ok xml_release /\
    release_version built_from = release_version "v1.2.0" /\
    settled (children releases_after) xml_release.
Proof.
  apply (listed_release_is_present (H := demo) file_before releases_after
           [Some "v1.2.0"] "v1.2.0").
  - vm_compute. reflexivity.
  - reflexivity.
  - apply list_elem_of_here.
Defined.

(** X13.  A run that succeeds deletes nothing and adds at most one record
    for each listed release. *)
Theorem run_length_bounds `{Library} (f : File) (data : string)
    (root0 root : Element) (json_releases : list (option string)) :
  content f = Some data ->
  xml_parse data = Ok root0 ->
  gh_release_list = Ok json_releases ->
  sync_tree f = Ok root ->
  length (children root0) <= length (children root) /\
  length (children root) <= length (children root0) + length json_releases.
Proof.
  intros Hd Hp Hl Hs.
  apply sync_tree_children in Hs
    as [data' [root0' [js [rs [Hd' [Hp' [Hl' [Hb ->]]]]]]]].
  assert (data' = data) as -> by congruence.
  assert (root0' = root0) as -> by congruence.
  assert (js = json_releases) as -> by congruence.
  pose proof (fold_merge_length rs (children root0)) as Hlen.
  apply Forall2_length in Hb. rewrite length_rev in Hb. lia.
Qed.

Lemma run_length_bounds_witness :
  length (children releases_before) <= length (children releases_after) /\
  length (children releases_after) <= length (children releases_before) + 1.
Proof.
  apply (run_length_bounds (H := demo) file_before
           (to_xml releases_before +:+ newline) releases_before releases_after
           [Some "v1.2.0"]).
  - reflexivity.
  - vm_compute. reflexivity.
  - reflexivity.
  - vm_compute. reflexivity.
Defined.

(** X14.  When the notes of a listed release are rendered to a tree whose
    first element has no children, a tag that is not allowed and no text or
    no tail (a thematic break at the start of the notes), the record of that
    release is not built, a [TypeError] is raised instead, and the whole run
    raises and leaves the file as it was. *)
Theorem notes_without_text_abort_run `{Library} (f : File)
    (json_releases : list (option string)) (tag_name : string)
    (json_release : JsonRelease) (date : string) (tree a : Element)
    (rest : list Element) :
  gh_release_list = Ok json_releases ->
  Some tag_name ∈ json_releases ->
  gh_release_view tag_name = Ok json_release ->
  isoformat_day (publishedAt json_release) = Ok date ->
  markdown_tree (body json_release) = Ok tree ->
  children tree = a :: rest ->
  children a = [] ->
  Sanitize.allowed (tag (Sanitize.remap a)) = false ->
  text a = None \/ tail a = None ->
  generate_metainfo_release tag_name = Raise TypeError /\
  exists e', sync_metainfo_releases f = (Raise e', f).
Proof.
  intros Hl Hin Hv Hd Hm Htree Hca Ha Hnone.
  assert (Hb : generate_metainfo_release tag_name = Raise TypeError).
  { apply (release_body_rejected tag_name json_release date _ Hv Hd).
    unfold generate_metainfo_description. rewrite Hm; simpl.
    now rewrite (SanitizeMore.run_first_without_text tree a rest). }
  split; [exact Hb|].
  exact (sync_raises f json_releases tag_name TypeError Hl Hin Hb).
Qed.

Lemma notes_without_text_abort_run_witness :
  generate_metainfo_release (H := demo_rule) "v1.3.0" = Raise TypeError /\
  exists e', sync_metainfo_releases (H := demo_rule) file_before
             = (Raise e', file_before).
Proof.
  apply (notes_without_text_abort_run (H := demo_rule) file_before
           [Some "v1.3.0"] "v1.3.0" release_with_rule "2024-07-08"
           thematic_break (leaf "hr" None (Some nl)) []).
  - reflexivity.
  - apply list_elem_of_here.
  - reflexivity.
  - reflexivity.
  - reflexivity.
  - reflexivity.
  - reflexivity.
  - reflexivity.
  - now left.
Defined.

End RunExtras.
